(** * gen.go: the githubql code generator

    A shallow embedding of [gen.go], the generator that renders [enum.go]
    and [input.go] from a GraphQL introspection document, and the
    properties of its helpers, of its two templates and of [run].

    Go strings are byte strings: [string] (a list of [ascii], one per byte).
    The decoded schema is Go's [interface{}] tree: [json].  What Go's
    library does and the file does not define (sorting, formatting,
    quoting, identifier casing) is a field of [GoLib]; what one execution
    meets (the command line, the environment variable, the network, the
    disk, the order in which a map is ranged over) is a field of [Env]. *)

From Stdlib Require Import List String Ascii Bool Arith NArith Lia.
From Stdlib Require Import Permutation Sorted.
Import ListNotations.
Open Scope string_scope.

#[local] Set Warnings "-register-all".

(** ** Go strings *)

Module GoString.

(** [strings.HasPrefix(s, prefix)]. *)
Definition HasPrefix (s pre : string) : bool := String.prefix pre s.

(** [strings.HasSuffix(s, suffix)]:
    [len(s) >= len(suffix) && s[len(s)-len(suffix):] == suffix]. *)
Definition HasSuffix (s suffix : string) : bool :=
  (String.length suffix <=? String.length s)%nat
  && String.eqb
       (substring (String.length s - String.length suffix)
                  (String.length suffix) s)
       suffix.

(** [strings.Join(parts, sep)]. *)
Definition Join (parts : list string) (sep : string) : string :=
  String.concat sep parts.

Definition nl : string := String (ascii_of_nat 10) EmptyString.
Definition tab : string := String (ascii_of_nat 9) EmptyString.
Definition dquote : string := String (ascii_of_nat 34) EmptyString.
Definition backquote : string := String (ascii_of_nat 96) EmptyString.

(** The lower-case form of an ASCII byte ('A'..'Z' are 65..90). *)
Definition lowerASCII (c : ascii) : ascii :=
  let n := nat_of_ascii c in
  if ((65 <=? n) && (n <=? 90))%nat then ascii_of_nat (n + 32) else c.

Definition isASCII (c : ascii) : bool := (nat_of_ascii c <? 128)%nat.

End GoString.
Import GoString.

(** ** The decoded document *)

(** [encoding/json] decodes into [interface{}]: nil, bool, float64, string,
    [[]interface{}] and [map[string]interface{}].  A number keeps its
    literal.  An object is the list of its bindings; the first binding of a
    key is the map's entry for it. *)
Inductive json : Type :=
| JNull
| JBool (b : bool)
| JNum (lit : string)
| JStr (s : string)
| JArr (items : list json)
| JObj (fields : list (string * json)).

Definition object := list (string * json).

(** [m[k]] on a [map[string]interface{}]: nil when the key is absent. *)
Fixpoint mapIndex (k : string) (m : object) : json :=
  match m with
  | [] => JNull
  | (k', v) :: rest => if String.eqb k k' then v else mapIndex k rest
  end.

(** [mapIndex] in continuation form, for functions that recurse into the
    value they look up; [mapIndex_with_spec] relates the two. *)
Definition mapIndex_with {A : Type} (k : string) (f : json -> A) (absent : A)
  : object -> A :=
  fix go (m : object) : A :=
    match m with
    | [] => absent
    | (k', v) :: rest => if String.eqb k k' then f v else go rest
    end.

(** [v == s] for an [interface{}] [v] and a string constant [s]. *)
Definition isStr (v : json) (s : string) : bool :=
  match v with
  | JStr s' => String.eqb s' s
  | _ => false
  end.

(** ** Outcomes *)

Inductive panic : Type :=
| TypeAssertion               (* x.(T) on a value that is not a T *)
| SliceBounds                 (* s[i:j] out of range *)
| NotNullable (s : string).   (* panic(fmt.Errorf("nullable type %q doesn't begin with '*'", s)) *)

(** What a call gives: a value, an error of [text/template], or a panic. *)
Inductive result (A : Type) : Type :=
| Ok (a : A)
| ExecError
| Panic (p : panic).
Arguments Ok {A} a.
Arguments ExecError {A}.
Arguments Panic {A} p.

Definition bind {A B : Type} (r : result A) (k : A -> result B) : result B :=
  match r with
  | Ok a => k a
  | ExecError => ExecError
  | Panic p => Panic p
  end.

Declare Scope go_scope.
Delimit Scope go_scope with go.
Notation "x <- r ;; k" := (bind r (fun x => k))
  (at level 100, r at next level, right associativity) : go_scope.
Open Scope go_scope.

(** [s[1:]]. *)
Definition sliceFrom1 (s : string) : result string :=
  match s with
  | EmptyString => Panic SliceBounds
  | String _ rest => Ok rest
  end.

(** ** The type-string resolver *)

(** The closure [typeString] of [t].  Its argument is a
    [map[string]interface{}]; the assertion [t["ofType"].(map[string]interface{})]
    at the two recursive calls is the last branch here. *)
Fixpoint typeString (t : json) : result string :=
  match t with
  | JObj m =>
      if isStr (mapIndex "kind" m) "NON_NULL" then
        mapIndex_with "ofType"
          (fun inner =>
             s <- typeString inner ;;
             if negb (HasPrefix s "*") then Panic (NotNullable s)
             else sliceFrom1 s)
          (Panic TypeAssertion) m
      else if isStr (mapIndex "kind" m) "LIST" then
        mapIndex_with "ofType"
          (fun inner => s <- typeString inner ;; Ok ("*[]" ++ s))
          (Panic TypeAssertion) m
      else
        match mapIndex "name" m with
        | JStr name => Ok ("*" ++ name)
        | _ => Panic TypeAssertion
        end
  | _ => Panic TypeAssertion
  end.

(** The kind of a type reference, as the [switch t["kind"]] sees it. *)
Definition kindIs (t : json) (k : string) : bool :=
  match t with
  | JObj m => isStr (mapIndex "kind" m) k
  | _ => false
  end.

(** The type references of a GraphQL schema: a named type, a LIST of a
    reference, or a NON_NULL of a reference that is not itself NON_NULL. *)
Fixpoint typeRef (t : json) : bool :=
  match t with
  | JObj m =>
      if isStr (mapIndex "kind" m) "NON_NULL" then
        mapIndex_with "ofType"
          (fun inner => negb (kindIs inner "NON_NULL") && typeRef inner)
          false m
      else if isStr (mapIndex "kind" m) "LIST" then
        mapIndex_with "ofType" typeRef false m
      else
        match mapIndex "name" m with
        | JStr _ => true
        | _ => false
        end
  | _ => false
  end.

(** Builders for the examples. *)
Definition named (kind name : string) : json :=
  JObj [("kind", JStr kind); ("name", JStr name); ("ofType", JNull)].
Definition LIST (inner : json) : json :=
  JObj [("kind", JStr "LIST"); ("name", JNull); ("ofType", inner)].
Definition NON_NULL (inner : json) : json :=
  JObj [("kind", JStr "NON_NULL"); ("name", JNull); ("ofType", inner)].

(** Induction over a document, through the values of its arrays and objects. *)
Section JsonInduction.
Variable P : json -> Prop.
Hypothesis HNull : P JNull.
Hypothesis HBool : forall b, P (JBool b).
Hypothesis HNum : forall lit, P (JNum lit).
Hypothesis HStr : forall s, P (JStr s).
Hypothesis HArr : forall items, Forall P items -> P (JArr items).
Hypothesis HObj : forall m, Forall (fun kv => P (snd kv)) m -> P (JObj m).

Fixpoint json_ind_nested (t : json) : P t :=
    match t with
    | JNull => HNull
    | JBool b => HBool b
    | JNum lit => HNum lit
    | JStr s => HStr s
    | JArr items =>
        HArr items
          ((fix all (l : list json) : Forall P l :=
              match l with
              | [] => Forall_nil P
              | x :: r => Forall_cons x (json_ind_nested x) (all r)
              end) items)
    | JObj m =>
        HObj m
          ((fix all (l : object) : Forall (fun kv => P (snd kv)) l :=
              match l with
              | [] => Forall_nil _
              | kv :: r =>
                  Forall_cons kv (json_ind_nested (snd kv)) (all r)
              end) m)
    end.
End JsonInduction.

(** ** What the generator takes from Go's library *)

(** The functions [gen.go] imports.  [sort_Slice] is [sort.Slice] seen as a
    function from the slice and [less] to the slice it leaves.  The flags
    are the points where releases of [text/template] differ on the
    constructs of the two templates, and where releases of [flag] differ
    on a request for help. *)
Record GoLib : Type := {
  (* strings.ToLower on the one-byte string holding a byte >= 0x80 *)
  ToLower_nonASCII : ascii -> string;
  (* strconv.Quote *)
  strconv_Quote : string -> string;
  (* ident.ParseLowerCamelCase(name).ToMixedCaps() *)
  lowerCamelToMixedCaps : string -> string;
  (* ident.ParseScreamingSnakeCase(name).ToMixedCaps() *)
  screamingSnakeToMixedCaps : string -> string;
  (* sort.Slice *)
  sort_Slice : forall A : Type, (A -> A -> bool) -> list A -> list A;
  (* fmt.Fprint of a value that is not a string, as {{.x}} prints it *)
  fmt_Sprint : json -> string;
  (* format.Source: the formatted source, or the error's text *)
  format_Source : string -> string + string;
  (* json.NewDecoder(body).Decode(&schema): the tree, or the error's text *)
  json_Decode : string -> json + string;
  (* whether the template function "and" stops at its first false argument *)
  and_short_circuits : bool;
  (* whether a panic in a template function comes back as an error *)
  recovers_panics : bool;
  (* whether "eq" compares nil with a string (to false) or fails on it *)
  eq_accepts_nil : bool;
  (* whether nil piped into a function is its argument (the zero value of
     the parameter) or no argument at all (an error) *)
  nil_pipes_as_zero : bool;
  (* whether flag.Parse, on -h or -help, exits with the status 0 or, as on
     every other error, with the status 2 *)
  help_exits_zero : bool
}.

(** [less] as [sort.Slice] requires it. *)
Definition StrictWeakOrder {A : Type} (less : A -> A -> bool) : Prop :=
  (forall a, less a a = false)
  /\ (forall a b c, less a b = true -> less b c = true -> less a c = true)
  /\ (forall a b c, less a b = false -> less b c = false -> less a c = false).

(** What [sort.Slice] promises: the slice is rearranged, and afterwards no
    element is less than one before it.  It promises nothing on the order
    of elements neither of which is less than the other. *)
Definition SortContract (L : GoLib) : Prop :=
  forall (A : Type) (less : A -> A -> bool) (l : list A),
    Permutation l (sort_Slice L A less l)
    /\ (StrictWeakOrder less ->
        StronglySorted (fun a b => less b a = false) (sort_Slice L A less l)).

(** ** The template functions *)

Section Funcs.
Variable L : GoLib.

(** [strings.ToLower(s[0:1])] for the first byte [c] of [s]. *)
Definition ToLower1 (c : ascii) : string :=
  if isASCII c then String (lowerASCII c) EmptyString
  else ToLower_nonASCII L c.

(** ["internal"]. *)
Definition internal (s : string) : bool := HasPrefix s "__".

(** [types[i].(map[string]interface{})["name"].(string)], what [less]
    reads. *)
Definition nameOf (t : json) : result string :=
  match t with
  | JObj m =>
      match mapIndex "name" m with
      | JStr n => Ok n
      | _ => Panic TypeAssertion
      end
  | _ => Panic TypeAssertion
  end.

Fixpoint mapM {A B : Type} (f : A -> result B) (l : list A)
  : result (list B) :=
  match l with
  | [] => Ok []
  | x :: rest => y <- f x ;; ys <- mapM f rest ;; Ok (y :: ys)
  end.

(** [less] on two elements held with the names it reads from them. *)
Definition lessName (a b : string * json) : bool := String.ltb (fst a) (fst b).

(** ["sortByName"]: [sort.Slice(types, less)] and [return types].  A sort of
    two or more elements calls [less] on each of them, and [less] panics on
    one whose name is not a string; on a shorter slice it is not called. *)
Definition sortByName (types : list json) : result (list json) :=
  if (List.length types <? 2)%nat then Ok types
  else
    names <- mapM nameOf types ;;
    Ok (map snd (sort_Slice L _ lessName (combine names types))).

(** [sort.Strings]: the ascending arrangement, computed by insertion. *)
Fixpoint insertString (x : string) (l : list string) : list string :=
  match l with
  | [] => [x]
  | y :: rest => if String.leb x y then x :: l else y :: insertString x rest
  end.

Definition sort_Strings (l : list string) : list string :=
  fold_right insertString [] l.

(** The loop of ["inputObjects"]. *)
Fixpoint inputObjectNames (types : list json) : result (list string) :=
  match types with
  | [] => Ok []
  | t :: rest =>
      match t with
      | JObj m =>
          match mapIndex "kind" m with
          | JStr k =>
              if negb (String.eqb k "INPUT_OBJECT") then inputObjectNames rest
              else
                match mapIndex "name" m with
                | JStr n => names <- inputObjectNames rest ;; Ok (n :: names)
                | _ => Panic TypeAssertion
                end
          | _ => Panic TypeAssertion
          end
      | _ => Panic TypeAssertion
      end
  end.

(** What the loop of ["inputObjects"] does with one element: it panics
    ([None]), skips it, or appends its name. *)
Definition inputObjectName (t : json) : option (list string) :=
  match t with
  | JObj m =>
      match mapIndex "kind" m with
      | JStr k =>
          if negb (String.eqb k "INPUT_OBJECT") then Some []
          else
            match mapIndex "name" m with
            | JStr n => Some [n]
            | _ => None
            end
      | _ => None
      end
  | _ => None
  end.

(** ["inputObjects"]. *)
Definition inputObjects (types : list json) : result (list string) :=
  names <- inputObjectNames types ;; Ok (sort_Strings names).

(** ["identifier"], ["enumIdentifier"], ["quote"], ["type"]. *)
Definition identifier (name : string) : string := lowerCamelToMixedCaps L name.
Definition enumIdentifier (name : string) : string :=
  screamingSnakeToMixedCaps L name.
Definition quote (s : string) : string := strconv_Quote L s.

(** The [switch] of ["endSentence"]: its cases in order, then [default]. *)
Definition withVerb (s : string) : string :=
  if HasPrefix s "autogenerated " then "is an " ++ s
  else if HasPrefix s "specifies " then s
  else "represents " ++ s.

(** [if !strings.HasSuffix(s, ".") { s += "." }]. *)
Definition withPeriod (s : string) : string :=
  if negb (HasSuffix s ".") then s ++ "." else s.

(** ["endSentence"]; [s[0:1]] is out of range on the empty string. *)
Definition endSentence (s : string) : result string :=
  match s with
  | EmptyString => Panic SliceBounds
  | String c rest =>
      let s := ToLower1 c ++ rest in
      let s := withVerb s in
      Ok (withPeriod s)
  end.

(** ["fullSentence"]. *)
Definition fullSentence (s : string) : string := withPeriod s.

(** ** The template language *)

(** [.k] on dot, a value of the document, as a function, [range] or the
    printer receives it: the entry of a map, nil when the key is absent (the
    invalid value reaches them as nil does), and an error on anything that
    is not a map, nil included. *)
Definition field (k : string) (v : json) : result json :=
  match v with
  | JObj m => Ok (mapIndex k m)
  | _ => ExecError
  end.

(** A value passed where a function takes a [string]. *)
Definition stringArg (v : json) : result string :=
  match v with
  | JStr s => Ok s
  | _ => ExecError
  end.

(** A value passed where a function takes a [[]interface{}]: as an
    argument, [f v], and as the value piped into it, [v | f]. *)
Definition sliceArg (v : json) : result (list json) :=
  match v with
  | JArr l => Ok l
  | _ => ExecError
  end.

Definition pipedSlice (v : json) : result (list json) :=
  match v with
  | JArr l => Ok l
  | JNull => if nil_pipes_as_zero L then Ok [] else ExecError
  | _ => ExecError
  end.

(** [eq v "c"] and [ne v "c"]: an error when [v] is neither a string nor
    nil. *)
Definition eq_string (v : json) (c : string) : result bool :=
  match v with
  | JStr s => Ok (String.eqb s c)
  | JNull => if eq_accepts_nil L then Ok false else ExecError
  | _ => ExecError
  end.

Definition ne_string (v : json) (c : string) : result bool :=
  b <- eq_string v c ;; Ok (negb b).

(** [{{v}}]. *)
Definition print (v : json) : string :=
  match v with
  | JStr s => s
  | _ => fmt_Sprint L v
  end.

(** A call of a template function that may panic. *)
Definition call {A : Type} (r : result A) : result A :=
  match r with
  | Panic p => if recovers_panics L then ExecError else Panic p
  | _ => r
  end.

(** The elements [{{range v}}] visits: those of a slice, none for nil, the
    values of a map in the order of its keys. *)
Definition rangeOver (v : json) : result (list json) :=
  match v with
  | JArr l => Ok l
  | JNull => Ok []
  | JObj m =>
      Ok (map (fun k => mapIndex k m)
              (sort_Strings (nodup string_dec (map fst m))))
  | _ => ExecError
  end.

(** The body of a [{{range}}] executed on each element in turn. *)
Fixpoint rangeExec {A : Type} (body : A -> result string) (l : list A)
  : result string :=
  match l with
  | [] => Ok EmptyString
  | x :: rest => s <- body x ;; r <- rangeExec body rest ;; Ok (s ++ r)
  end.

(** The texts of a range, one after the other. *)
Definition joinAll (parts : list string) : string :=
  fold_right append EmptyString parts.

(** ** The template of enum.go *)

(** One pass of [{{range .enumValues}}] inside [{{define "enum"}}]; [$] is
    the enum type [t], dot is the value [v]. *)
Definition enumConstant (t v : json) : result string :=
  tname <- field "name" t ;;
  vname <- field "name" v ;;
  vn <- stringArg vname ;;
  vdesc <- field "description" v ;;
  vd <- stringArg vdesc ;;
  Ok (nl ++ tab ++ print tname ++ enumIdentifier vn ++ " " ++ print tname
         ++ " = " ++ quote vn ++ " // " ++ fullSentence vd).

(** [{{define "enum"}}]. *)
Definition enum (t : json) : result string :=
  name <- field "name" t ;;
  desc <- field "description" t ;;
  d <- stringArg desc ;;
  first <- call (endSentence d) ;;
  values <- field "enumValues" t ;;
  vs <- rangeOver values ;;
  constants <- rangeExec (enumConstant t) vs ;;
  Ok ("// " ++ print name ++ " " ++ first ++ nl
        ++ "type " ++ print name ++ " string" ++ nl
        ++ nl
        ++ "// " ++ fullSentence d ++ nl
        ++ "const (" ++ constants ++ nl
        ++ ")").

(** [and (eq .kind "ENUM") (not (internal .name))]. *)
Definition isPublicEnum (t : json) : result bool :=
  kind <- field "kind" t ;;
  e <- eq_string kind "ENUM" ;;
  if and_short_circuits L && negb e then Ok false
  else
    name <- field "name" t ;;
    n <- stringArg name ;;
    Ok (e && negb (internal n)).

Definition enumEntry (t : json) : result string :=
  b <- isPublicEnum t ;;
  if b then (d <- enum t ;; Ok (nl ++ d ++ nl)) else Ok EmptyString.

Definition enumHeader : string :=
  "// Code generated by gen.go; DO NOT EDIT." ++ nl
  ++ nl
  ++ "package githubql" ++ nl.

(** A value inside a chain of fields: a value of the document, or what
    [reflect] calls the invalid value. *)
Inductive value : Type :=
| Invalid
| Valid (v : json).

(** [receiver.MapIndex(key)]: the invalid value when the key is absent, the
    entry, nil included, when it is present. *)
Fixpoint entry (k : string) (m : object) : value :=
  match m with
  | [] => Invalid
  | (k', v) :: rest => if String.eqb k k' then Valid v else entry k rest
  end.

(** A value as the end of a pipeline hands it on: nil for the invalid
    value. *)
Definition dig (v : value) : json :=
  match v with
  | Invalid => JNull
  | Valid v => v
  end.

(** [.k] inside a chain [.a.k]: on the invalid value it is the invalid
    value again, on a map the entry, and an error on nil and on every other
    value. *)
Definition chainField (k : string) (v : value) : result value :=
  match v with
  | Invalid => Ok Invalid
  | Valid (JObj m) => Ok (entry k m)
  | Valid _ => ExecError
  end.

(** [reflect.ValueOf(data)] for the document given to [Execute]: invalid
    for nil. *)
Definition dataOf (doc : json) : value :=
  match doc with
  | JNull => Invalid
  | _ => Valid doc
  end.

(** [.data.__schema.types]. *)
Definition schemaTypes (doc : json) : result value :=
  data <- chainField "data" (dataOf doc) ;;
  schema <- chainField "__schema" data ;;
  chainField "types" schema.

(** Replaces the entry of [k]. *)
Fixpoint assign (k : string) (v : json) (m : object) : object :=
  match m with
  | [] => []
  | (k', v') :: rest =>
      if String.eqb k k' then (k', v) :: rest else (k', v') :: assign k v rest
  end.

(** The document after [sort.Slice] has rearranged, in place, the slice it
    holds at [.data.__schema.types]. *)
Definition withTypes (doc : json) (sorted : list json) : json :=
  match doc with
  | JObj top =>
      match mapIndex "data" top with
      | JObj data =>
          match mapIndex "__schema" data with
          | JObj schema =>
              match mapIndex "types" schema with
              | JArr _ =>
                  JObj (assign "data"
                          (JObj (assign "__schema"
                                   (JObj (assign "types" (JArr sorted) schema))
                                   data))
                          top)
              | _ => doc
              end
          | _ => doc
          end
      | _ => doc
      end
  | _ => doc
  end.

(** [.data.__schema.types | f] and [f .data.__schema.types], for a
    function [f] of a slice.  Where the document is nil or lacks one of the
    keys the chain is the invalid value: nil when piped, the zero slice as
    an argument. *)
Definition typesOf (doc : json) : result (list json) :=
  ts <- schemaTypes doc ;; pipedSlice (dig ts).

Definition typesArg (doc : json) : result (list json) :=
  ts <- schemaTypes doc ;;
  match ts with
  | Invalid => Ok []
  | Valid v => sliceArg v
  end.

(** The template ["enum.go"] executed on the document: the text, and the
    document as the execution leaves it. *)
Definition enum_go (doc : json) : result (string * json) :=
  types <- typesOf doc ;;
  sorted <- call (sortByName types) ;;
  body <- rangeExec enumEntry sorted ;;
  Ok (enumHeader ++ body, withTypes doc sorted).

(** ** The template of input.go *)

(** A field of [{{define "inputObject"}}]: the text both ranges share. *)
Definition fieldDecl (f : json) (note tag : string) : result string :=
  desc <- field "description" f ;;
  d <- stringArg desc ;;
  name <- field "name" f ;;
  n <- stringArg name ;;
  ty <- field "type" f ;;
  tystr <- call (match ty with
                 | JObj _ | JNull => typeString ty
                 | _ => ExecError
                 end) ;;
  Ok (nl ++ tab ++ "// " ++ fullSentence d ++ note ++ nl
        ++ tab ++ identifier n ++ " " ++ tystr ++ " "
        ++ backquote ++ "json:" ++ dquote ++ print name ++ tag ++ dquote
        ++ backquote).

(** [.type.kind], as [eq] and [ne] receive it. *)
Definition fieldTypeKind (f : json) : result json :=
  ty <- chainField "type" (Valid f) ;;
  kind <- chainField "kind" ty ;;
  Ok (dig kind).

(** One pass of the first [{{range .inputFields}}]. *)
Definition requiredField (f : json) : result string :=
  kind <- fieldTypeKind f ;;
  b <- eq_string kind "NON_NULL" ;;
  if b then fieldDecl f " (Required.)" EmptyString else Ok EmptyString.

(** One pass of the second [{{range .inputFields}}]. *)
Definition optionalField (f : json) : result string :=
  kind <- fieldTypeKind f ;;
  b <- ne_string kind "NON_NULL" ;;
  if b then fieldDecl f " (Optional.)" ",omitempty" else Ok EmptyString.

(** [{{define "inputObject"}}]. *)
Definition inputObject (t : json) : result string :=
  name <- field "name" t ;;
  desc <- field "description" t ;;
  d <- stringArg desc ;;
  first <- call (endSentence d) ;;
  fields <- field "inputFields" t ;;
  fs <- rangeOver fields ;;
  required <- rangeExec requiredField fs ;;
  optional <- rangeExec optionalField fs ;;
  Ok ("// " ++ print name ++ " " ++ first ++ nl
        ++ "type " ++ print name ++ " struct {" ++ required ++ nl
        ++ optional ++ nl
        ++ "}").

Definition inputEntry (t : json) : result string :=
  kind <- field "kind" t ;;
  b <- eq_string kind "INPUT_OBJECT" ;;
  if b then (d <- inputObject t ;; Ok (nl ++ d ++ nl)) else Ok EmptyString.

Definition inputHeader (names : list string) : string :=
  "// Code generated by gen.go; DO NOT EDIT." ++ nl
  ++ nl
  ++ "package githubql" ++ nl
  ++ nl
  ++ "// Input represents one of the Input structs:" ++ nl
  ++ "//" ++ nl
  ++ "// " ++ Join names ", " ++ "." ++ nl
  ++ "type Input interface{}" ++ nl.

(** The template ["input.go"] executed on the document. *)
Definition input_go (doc : json) : result (string * json) :=
  all <- typesArg doc ;;
  names <- call (inputObjects all) ;;
  types <- typesOf doc ;;
  sorted <- call (sortByName types) ;;
  body <- rangeExec inputEntry sorted ;;
  Ok (inputHeader names ++ body, withTypes doc sorted).

(** The buffer of an execution. *)
Definition textOf (r : result (string * json)) : result string :=
  x <- r ;; Ok (fst x).

(** The types each file declares, out of the sorted slice. *)
Definition declaresEnum (t : json) : bool :=
  kindIs t "ENUM"
  && match nameOf t with Ok n => negb (internal n) | _ => false end.

Definition declaresInput (t : json) : bool := kindIs t "INPUT_OBJECT".

(** Two types in the order of their names: no later, and earlier. *)
Definition nameLeb (a b : json) : bool :=
  match nameOf a, nameOf b with
  | Ok x, Ok y => String.leb x y
  | _, _ => false
  end.

Definition nameLtb (a b : json) : bool :=
  match nameOf a, nameOf b with
  | Ok x, Ok y => String.ltb x y
  | _, _ => false
  end.

(** Whether [.type.kind] of an input field is NON_NULL. *)
Definition isRequired (f : json) : bool :=
  match f with
  | JObj m => kindIs (mapIndex "type" m) "NON_NULL"
  | _ => false
  end.

(** ** The run *)

(** [var templates]: filename -> template. *)
Definition template : Type := json -> result (string * json).

Definition templates : list (string * template) :=
  [("enum.go", enum_go); ("input.go", input_go)].

End Funcs.

(** What [ioutil.WriteFile] did: it wrote the file, or it failed with an
    error and left the file alone ([None]) or holding [Some] content. *)
Inductive written : Type :=
| WriteOk
| WriteErr (msg : string) (remains : option string).

(** What one execution meets. *)
Record Env : Type := {
  (* os.Args[1:] *)
  os_Args : list string;
  (* os.LookupEnv("GITHUB_TOKEN") *)
  GITHUB_TOKEN : option string;
  (* http.DefaultClient.Do(req), from the Authorization header: the body,
     or the transport error's text *)
  http_Do : string -> string + string;
  (* the order in which "for filename, t := range templates" visits the two
     entries of the map *)
  enum_go_first : bool;
  (* ioutil.WriteFile(filename, out, 0644) *)
  WriteFile : string -> string -> written
}.

Inductive error : Type :=
| ErrTokenNotSet                  (* "GITHUB_TOKEN environment variable not set" *)
| ErrTransport (msg : string)
| ErrDecode (msg : string)
| ErrExecute
| ErrWrite (msg : string).

Inductive logged : Type :=
| Println (msg : string)          (* log.Println(err) *)
| Fatalln (e : error)             (* log.Fatalln(err) *)
| Usage (err : option string).    (* flag: the error, if any, then "Usage of ..." *)

(** The files, the standard output and the log. *)
Record world : Type := {
  disk : list (string * string);
  stdout : list string;
  stderr : list logged
}.

Fixpoint readFile (filename : string) (d : list (string * string))
  : option string :=
  match d with
  | [] => None
  | (f, content) :: rest =>
      if String.eqb filename f then Some content else readFile filename rest
  end.

(** How [run] ends: it returns [err], or a panic unwinds it. *)
Inductive ending : Type :=
| Returned (err : option error)
| Panicked (p : panic).

(** How [flag.Parse] ends on a command line when, as here, no flag is
    defined. *)
Inductive parsed : Type :=
| Parsed                      (* it returns: the arguments begin with no flag *)
| HelpRequested               (* -h or -help: ErrHelp *)
| BadFlag (msg : string).     (* any other flag *)

(** [name[0:i]] for the first [i >= 1] with [name[i] == '='], given
    [name[1:]]. *)
Fixpoint untilEquals (rest : string) : string :=
  match rest with
  | EmptyString => EmptyString
  | String c rest' =>
      if Ascii.eqb c "=" then EmptyString else String c (untilEquals rest')
  end.

(** [flag.Parse()], that is [parseOne] on [os.Args[1:]] until it reports no
    flag or an error.  With no flag defined the first argument settles it:
    an argument shorter than two bytes or without a leading ['-'], and
    ["--"], end the flags; anything else is ill-formed, a request for help,
    or a flag that is not defined. *)
Definition flag_Parse (args : list string) : parsed :=
  match args with
  | String a (String c rest) :: _ =>
      if negb (Ascii.eqb a "-") then Parsed
      else if Ascii.eqb c "-" && String.eqb rest EmptyString then Parsed
      else
        match (if Ascii.eqb c "-" then rest else String c rest) with
        | EmptyString =>
            BadFlag ("bad flag syntax: " ++ String a (String c rest))
        | String d more =>
            if Ascii.eqb d "-" || Ascii.eqb d "=" then
              BadFlag ("bad flag syntax: " ++ String a (String c rest))
            else
              let name := String d (untilEquals more) in
              if String.eqb name "help" || String.eqb name "h" then
                HelpRequested
              else BadFlag ("flag provided but not defined: -" ++ name)
        end
  | _ => Parsed
  end.

Section Run.
Variable L : GoLib.
Variable E : Env.

(** [loadSchema].  [http.NewRequest] is given a constant method and URL and
    does not fail; the status of the response is not looked at. *)
Definition loadSchema (githubToken : string) : json + error :=
  match http_Do E ("bearer " ++ githubToken) with
  | inr msg => inr (ErrTransport msg)
  | inl body =>
      match json_Decode L body with
      | inl schema => inl schema
      | inr msg => inr (ErrDecode msg)
      end
  end.

(** The entries of [templates] in the order of this execution's [range]. *)
Definition rangeTemplates : list (string * template) :=
  if enum_go_first E then templates L else rev (templates L).

(** What is written when [format.Source] fails. *)
Definition degraded (msg buf : string) : string :=
  "// gofmt error: " ++ msg ++ nl ++ nl ++ buf.

(** The body of the loop of [run], over the entries still to visit. *)
Fixpoint runLoop (todo : list (string * template)) (schema : json)
         (w : world) : world * ending :=
  match todo with
  | [] => (w, Returned None)
  | (filename, t) :: rest =>
      match t schema with
      | ExecError => (w, Returned (Some ErrExecute))
      | Panic p => (w, Panicked p)
      | Ok (buf, schema') =>
          let (out, log) :=
            match format_Source L buf with
            | inl formatted => (formatted, stderr w)
            | inr msg => (degraded msg buf, (stderr w ++ [Println msg])%list)
            end in
          let out' := (stdout w ++ [("writing " ++ filename)%string])%list in
          match WriteFile E filename out with
          | WriteOk =>
              runLoop rest schema'
                {| disk := (filename, out) :: disk w;
                   stdout := out'; stderr := log |}
          | WriteErr msg remains =>
              ({| disk := match remains with
                          | Some content => (filename, content) :: disk w
                          | None => disk w
                          end;
                  stdout := out'; stderr := log |},
               Returned (Some (ErrWrite msg)))
          end
      end
  end.

(** [run]. *)
Definition run (w : world) : world * ending :=
  match GITHUB_TOKEN E with
  | None => (w, Returned (Some ErrTokenNotSet))
  | Some githubToken =>
      match loadSchema githubToken with
      | inr err => (w, Returned (Some err))
      | inl schema => runLoop rangeTemplates schema w
      end
  end.

(** [main], to the exit status.  [flag.Parse] exits by itself on a flag:
    with the status 2, or 0 for a request for help where the release has
    it so, after printing the usage.  Otherwise [run] is called: 0 when it
    returns nil, 1 after [log.Fatalln], 2 after a panic. *)
Definition main (w : world) : world * nat :=
  match flag_Parse (os_Args E) with
  | HelpRequested =>
      ({| disk := disk w; stdout := stdout w;
          stderr := (stderr w ++ [Usage None])%list |},
       if help_exits_zero L then 0 else 2)
  | BadFlag msg =>
      ({| disk := disk w; stdout := stdout w;
          stderr := (stderr w ++ [Usage (Some msg)])%list |}, 2)
  | Parsed =>
      match run w with
      | (w', Returned None) => (w', 0)
      | (w', Returned (Some err)) =>
          ({| disk := disk w'; stdout := stdout w';
              stderr := (stderr w' ++ [Fatalln err])%list |}, 1)
      | (w', Panicked _) => (w', 2)
      end
  end.

(** The steps of the loop when every one completes: the filename and the
    rendered buffer of each, in order. *)
Fixpoint renderSteps (todo : list (string * template)) (schema : json)
  : result (list (string * string)) :=
  match todo with
  | [] => Ok []
  | (filename, t) :: rest =>
      r <- t schema ;;
      steps <- renderSteps rest (snd r) ;;
      Ok ((filename, fst r) :: steps)
  end.

(** What [run] hands to [ioutil.WriteFile] for a rendered buffer. *)
Definition payload (buf : string) : string :=
  match format_Source L buf with
  | inl formatted => formatted
  | inr msg => degraded msg buf
  end.

(** The files and the log lines that completed steps leave, in order. *)
Definition writes (steps : list (string * string)) : list (string * string) :=
  map (fun s => (fst s, payload (snd s))) steps.

Definition formatLog (steps : list (string * string)) : list logged :=
  flat_map (fun s => match format_Source L (snd s) with
                     | inl _ => []
                     | inr msg => [Println msg]
                     end) steps.

End Run.
(** ** Two sorts that keep the contract *)

Section Sorts.
Variable A : Type.
Variable less : A -> A -> bool.

(** The inner loop of insertion sort, [for j := i; j > a && less(j, j-1); j--
    { swap(j, j-1) }]: [x] moves towards the front past each element it is
    less than.  [before] is the part before [x], nearest element first. *)
Fixpoint insertBack (x : A) (before : list A) : list A :=
  match before with
  | [] => [x]
  | y :: rest => if less x y then y :: insertBack x rest else x :: before
  end.

Definition insertionSort (l : list A) : list A :=
  rev (fold_left (fun before x => insertBack x before) l []).

(** [for i := 6; i < n; i++ { if less(i, i-6) { swap(i, i-6) } }]: [window]
    holds the six elements before position [i]. *)
Fixpoint gapPass (window rest : list A) : list A :=
  match rest with
  | [] => window
  | x :: rest' =>
      match window with
      | [] => x :: gapPass [] rest'
      | y :: window' =>
          if less x y then x :: gapPass (window' ++ [y]) rest'
          else y :: gapPass (window' ++ [x]) rest'
      end
  end.

(** The gap pass and then insertion sort: what the sort package of the Go
    releases up to 1.18 runs on a slice of at most twelve elements. *)
Definition shellInsertionSort (l : list A) : list A :=
  insertionSort (gapPass (firstn 6 l) (skipn 6 l)).

End Sorts.

(** Two libraries to evaluate the generator with.  Casing and printing are
    stand-ins; the formatter accepts the buffers that begin with the
    generated-code line.  [stableLib] sorts by insertion and has the
    template language of the older releases, [shellLib] sorts by the gap
    pass and insertion and has that of the newer ones. *)
Definition upperFirst (s : string) : string :=
  match s with
  | EmptyString => EmptyString
  | String c rest =>
      let n := nat_of_ascii c in
      String (if ((97 <=? n) && (n <=? 122))%nat then ascii_of_nat (n - 32)
              else c) rest
  end.

Definition stableLib : GoLib := {|
  ToLower_nonASCII := fun c => String c EmptyString;
  strconv_Quote := fun s => dquote ++ s ++ dquote;
  lowerCamelToMixedCaps := upperFirst;
  screamingSnakeToMixedCaps := fun s => s;
  sort_Slice := insertionSort;
  fmt_Sprint := fun _ => "<no value>";
  format_Source := fun buf =>
    if HasPrefix buf "// Code generated by gen.go; DO NOT EDIT." then inl buf
    else inr "1:1: expected 'package'";
  json_Decode := fun body =>
    if String.eqb body "{}" then inl (JObj [])
    else inr "invalid character";
  and_short_circuits := false;
  recovers_panics := false;
  eq_accepts_nil := false;
  nil_pipes_as_zero := false;
  help_exits_zero := false
|}.

Definition shellLib : GoLib := {|
  ToLower_nonASCII := ToLower_nonASCII stableLib;
  strconv_Quote := strconv_Quote stableLib;
  lowerCamelToMixedCaps := lowerCamelToMixedCaps stableLib;
  screamingSnakeToMixedCaps := screamingSnakeToMixedCaps stableLib;
  sort_Slice := shellInsertionSort;
  fmt_Sprint := fmt_Sprint stableLib;
  format_Source := format_Source stableLib;
  json_Decode := json_Decode stableLib;
  and_short_circuits := true;
  recovers_panics := true;
  eq_accepts_nil := true;
  nil_pipes_as_zero := true;
  help_exits_zero := true
|}.

(** ** Documents and executions for the examples *)

Definition typeDesc (kind name description : string)
           (children : list (string * json)) : json :=
  JObj ([("kind", JStr kind); ("name", JStr name);
         ("description", JStr description)] ++ children)%list.

Definition enumValue (name description : string) : json :=
  JObj [("name", JStr name); ("description", JStr description)].

Definition inputField (name description : string) (ty : json) : json :=
  JObj [("name", JStr name); ("description", JStr description); ("type", ty)].

Definition schemaOf (types : list json) : json :=
  JObj [("data", JObj [("__schema", JObj [("types", JArr types)])])].

Definition issueState : json :=
  typeDesc "ENUM" "IssueState" "The possible states of an issue."
    [("enumValues",
      JArr [enumValue "OPEN" "An open issue";
            enumValue "CLOSED" "A closed issue."])].

Definition addCommentInputFields : list json :=
  [inputField "clientMutationId" "A unique identifier"
     (named "SCALAR" "String");
   inputField "subjectId" "The Node ID of the subject"
     (NON_NULL (named "SCALAR" "ID"));
   inputField "labels" "Labels to set"
     (LIST (NON_NULL (named "SCALAR" "String")));
   inputField "body" "The contents of the comment."
     (NON_NULL (named "SCALAR" "String"))].

Definition addCommentFields : object :=
  [("kind", JStr "INPUT_OBJECT"); ("name", JStr "AddCommentInput");
   ("description", JStr "Autogenerated input type of AddComment");
   ("inputFields", JArr addCommentInputFields)].

Definition addCommentInput : json := JObj addCommentFields.

(** The struct the template renders for it. *)
Definition addCommentStruct : string :=
  Eval vm_compute in
    match inputObject stableLib addCommentInput with
    | Ok text => text
    | _ => EmptyString
    end.

(** An input object with a reserved name, next to a reserved enum. *)
Definition reservedInput : json :=
  typeDesc "INPUT_OBJECT" "__Hidden" "A reserved input" [("inputFields", JArr [])].

Definition reservedEnum : json :=
  typeDesc "ENUM" "__TypeKind" "An enum describing what kind of type a given __Type is."
    [("enumValues", JArr [])].

Definition reservedSchema : json := schemaOf [reservedInput; reservedEnum].

(** Two enums of one name. *)
Definition twinSchema : json :=
  schemaOf [typeDesc "ENUM" "State" "The first" [("enumValues", JArr [])];
            typeDesc "ENUM" "State" "The second" [("enumValues", JArr [])]].

(** Seven types, the first two of one name. *)
Definition plain (name description : string) : json :=
  typeDesc "SCALAR" name description [].

Definition sevenTypes : list json :=
  [plain "B" "first"; plain "B" "second"; plain "C" "c1"; plain "D" "d";
   plain "E" "e"; plain "F" "f"; plain "A" "a"].

Definition smallSchema : json := schemaOf [issueState; addCommentInput].

(** A world with nothing on disk, and executions that meet [smallSchema]. *)
Definition emptyWorld : world := {| disk := []; stdout := []; stderr := [] |}.

Definition servingLib (L : GoLib) (doc : json) (badFormat : string -> bool)
  : GoLib := {|
  ToLower_nonASCII := ToLower_nonASCII L;
  strconv_Quote := strconv_Quote L;
  lowerCamelToMixedCaps := lowerCamelToMixedCaps L;
  screamingSnakeToMixedCaps := screamingSnakeToMixedCaps L;
  sort_Slice := sort_Slice L;
  fmt_Sprint := fmt_Sprint L;
  format_Source := fun buf =>
    if badFormat buf then inr "12:1: expected declaration" else inl buf;
  json_Decode := fun body =>
    if String.eqb body "schema" then inl doc else inr "invalid character";
  and_short_circuits := and_short_circuits L;
  recovers_panics := recovers_panics L;
  eq_accepts_nil := eq_accepts_nil L;
  nil_pipes_as_zero := nil_pipes_as_zero L;
  help_exits_zero := help_exits_zero L
|}.

Definition execution (enumFirst : bool) (write : string -> string -> written)
  : Env := {|
  os_Args := [];
  GITHUB_TOKEN := Some "token";
  http_Do := fun _ => inl "schema";
  enum_go_first := enumFirst;
  WriteFile := write
|}.


(** The formatter rejects the buffer of enum.go; every write succeeds. *)
Definition rejectsEnum (buf : string) : bool :=
  HasPrefix buf (enumHeader ++ nl ++ "// IssueState").

Definition enumRejected : GoLib := servingLib stableLib smallSchema rejectsEnum.

Definition allFormatted : GoLib :=
  servingLib stableLib smallSchema (fun _ => false).

Definition writable (enumFirst : bool) : Env :=
  execution enumFirst (fun _ _ => WriteOk).

(** The steps of the loop over [smallSchema], enum.go first. *)
Definition smallSteps : list (string * string) :=
  Eval vm_compute in
    match renderSteps (templates stableLib) smallSchema with
    | Ok steps => steps
    | _ => []
    end.

Definition smallEnumText : string :=
  Eval vm_compute in
    match enum_go stableLib smallSchema with
    | Ok r => fst r
    | _ => EmptyString
    end.


(** ** Further vocabulary *)

(** The type names under a reference do not begin with the marker (no name
    of a GraphQL schema does). *)
Fixpoint plainNames (t : json) : bool :=
  match t with
  | JObj m =>
      if isStr (mapIndex "kind" m) "NON_NULL" then
        mapIndex_with "ofType" plainNames true m
      else if isStr (mapIndex "kind" m) "LIST" then
        mapIndex_with "ofType" plainNames true m
      else
        match mapIndex "name" m with
        | JStr name => negb (HasPrefix name "*")
        | _ => true
        end
  | _ => true
  end.

(** What [fmt.Println("writing", filename)] prints. *)
Definition announce (step : string * string) : string :=
  "writing " ++ fst step.

(** The world a run over [smallSchema] leaves, enum.go first. *)
Definition smallWorld : world :=
  Eval vm_compute in fst (main allFormatted (writable true) emptyWorld).

Definition smallInputText : string :=
  Eval vm_compute in
    match input_go stableLib smallSchema with
    | Ok r => fst r
    | _ => EmptyString
    end.

Definition issueStateFields : object :=
  [("kind", JStr "ENUM"); ("name", JStr "IssueState");
   ("description", JStr "The possible states of an issue.");
   ("enumValues",
    JArr [enumValue "OPEN" "An open issue";
          enumValue "CLOSED" "A closed issue."])].

Definition issueStateText : string :=
  Eval vm_compute in
    match enum stableLib (JObj issueStateFields) with
    | Ok text => text
    | _ => EmptyString
    end.

(** A call that does not end in a panic. *)
Definition noPanic {A : Type} (r : result A) : Prop :=
  forall p, r <> Panic p.
(** ** Facts about the document and the resolver *)


Lemma mapIndex_with_spec {A : Type} (k : string) (f : json -> A) (absent : A)
      (m : object) :
  f JNull = absent -> mapIndex_with k f absent m = f (mapIndex k m).
Proof.
  intros Hnil. induction m as [|[k' v] rest IH]; simpl.
  - now rewrite Hnil.
  - destruct (String.eqb k k'); [reflexivity | exact IH].
Qed.

Lemma mapIndex_Forall (P : json -> Prop) (k : string) (m : object) :
  P JNull -> Forall (fun kv => P (snd kv)) m -> P (mapIndex k m).
Proof.
  intros Hnil Hall. induction Hall as [|[k' v] rest Hv _ IH]; simpl.
  - exact Hnil.
  - destruct (String.eqb k k'); [exact Hv | exact IH].
Qed.

(** The resolver, one step unfolded: the text of the Go closure. *)
Lemma typeString_unfold (m : object) :
  typeString (JObj m) =
  if isStr (mapIndex "kind" m) "NON_NULL" then
    s <- typeString (mapIndex "ofType" m) ;;
    if negb (HasPrefix s "*") then Panic (NotNullable s) else sliceFrom1 s
  else if isStr (mapIndex "kind" m) "LIST" then
    s <- typeString (mapIndex "ofType" m) ;; Ok ("*[]" ++ s)
  else
    match mapIndex "name" m with
    | JStr name => Ok ("*" ++ name)
    | _ => Panic TypeAssertion
    end.
Proof.
  cbn [typeString].
  destruct (isStr (mapIndex "kind" m) "NON_NULL").
  - now apply mapIndex_with_spec.
  - destruct (isStr (mapIndex "kind" m) "LIST"); [|reflexivity].
    now apply mapIndex_with_spec.
Qed.

Lemma typeRef_unfold (m : object) :
  typeRef (JObj m) =
  if isStr (mapIndex "kind" m) "NON_NULL" then
    negb (kindIs (mapIndex "ofType" m) "NON_NULL")
    && typeRef (mapIndex "ofType" m)
  else if isStr (mapIndex "kind" m) "LIST" then typeRef (mapIndex "ofType" m)
  else match mapIndex "name" m with JStr _ => true | _ => false end.
Proof.
  cbn [typeRef].
  destruct (isStr (mapIndex "kind" m) "NON_NULL").
  - now apply mapIndex_with_spec.
  - destruct (isStr (mapIndex "kind" m) "LIST"); [|reflexivity].
    now apply mapIndex_with_spec.
Qed.

Lemma HasPrefix_iff (s pre : string) :
  HasPrefix s pre = true <-> exists r, s = pre ++ r.
Proof.
  unfold HasPrefix. revert s.
  induction pre as [|c pre IH]; intros s.
  - destruct s; cbn [prefix]; (split; [intros _; eexists; reflexivity|reflexivity]).
  - destruct s as [|d s]; cbn [prefix append].
    + split; [discriminate | intros [r H]; discriminate].
    + destruct (ascii_dec c d) as [->|Hne].
      * rewrite IH. split; intros [r H]; exists r; congruence.
      * split; [discriminate | intros [r H]; congruence].
Qed.

Lemma HasPrefix_star (s : string) :
  HasPrefix s "*" = true <-> exists r, s = String "*" r.
Proof. apply (HasPrefix_iff s "*"). Qed.

Lemma isStr_true (v : json) (s : string) : isStr v s = true <-> v = JStr s.
Proof.
  destruct v; simpl; try (split; [discriminate | congruence]).
  rewrite String.eqb_eq. split; congruence.
Qed.

(** The resolver never ends in a template error. *)
Lemma typeString_no_ExecError (t : json) : typeString t <> ExecError.
Proof.
  induction t as [| | | | |m IH] using json_ind_nested; try discriminate.
  rewrite typeString_unfold.
  assert (Hin : typeString (mapIndex "ofType" m) <> ExecError)
    by (apply (mapIndex_Forall (fun v => typeString v <> ExecError));
        [discriminate | exact IH]).
  destruct (isStr (mapIndex "kind" m) "NON_NULL").
  - destruct (typeString (mapIndex "ofType" m)) as [s| |p]; simpl;
      [|congruence|discriminate].
    destruct (HasPrefix s "*"); simpl; [|discriminate].
    destruct s; discriminate.
  - destruct (isStr (mapIndex "kind" m) "LIST").
    + destruct (typeString (mapIndex "ofType" m)); simpl;
        [discriminate|congruence|discriminate].
    + destruct (mapIndex "name" m); discriminate.
Qed.

(** On a type reference that is not NON_NULL the resolver returns, and what
    it returns begins with the marker; on a NON_NULL one it returns too. *)
Lemma typeString_typeRef (t : json) :
  typeRef t = true ->
  exists s, typeString t = Ok s
            /\ (kindIs t "NON_NULL" = false -> HasPrefix s "*" = true).
Proof.
  induction t as [| | | | |m IH] using json_ind_nested; try discriminate.
  rewrite typeRef_unfold, typeString_unfold. unfold kindIs.
  set (inner := mapIndex "ofType" m).
  assert (Hin : typeRef inner = true ->
                exists s, typeString inner = Ok s
                          /\ (kindIs inner "NON_NULL" = false ->
                              HasPrefix s "*" = true)).
  { apply (mapIndex_Forall
             (fun v => typeRef v = true ->
                       exists s, typeString v = Ok s
                                 /\ (kindIs v "NON_NULL" = false ->
                                     HasPrefix s "*" = true)));
      [discriminate | exact IH]. }
  destruct (isStr (mapIndex "kind" m) "NON_NULL").
  - intros H. apply andb_true_iff in H as [Hk Hr].
    apply negb_true_iff in Hk.
    destruct (Hin Hr) as (s & -> & Hs). specialize (Hs Hk). simpl.
    rewrite Hs. simpl. apply HasPrefix_star in Hs as [r ->].
    exists r. split; [reflexivity | discriminate].
  - destruct (isStr (mapIndex "kind" m) "LIST").
    + intros Hr. destruct (Hin Hr) as (s & -> & _). simpl.
      exists ("*[]" ++ s). split; [reflexivity|]. intros _.
      apply HasPrefix_star. now exists ("[]" ++ s).
    + destruct (mapIndex "name" m); try discriminate. intros _.
      exists ("*" ++ s). split; [reflexivity|]. intros _.
      apply HasPrefix_star. now exists s.
Qed.

(** Whatever a reference that is not NON_NULL resolves to begins with the
    marker. *)
Lemma typeString_marker (X : json) (s : string) :
  kindIs X "NON_NULL" = false -> typeString X = Ok s ->
  exists r, s = String "*" r.
Proof.
  destruct X as [| | | | |m]; try discriminate.
  unfold kindIs. rewrite typeString_unfold. intros ->.
  destruct (isStr (mapIndex "kind" m) "LIST").
  - destruct (typeString (mapIndex "ofType" m)) as [s'| |p]; simpl;
      try discriminate.
    intros [= <-]. now exists ("[]" ++ s').
  - destruct (mapIndex "name" m); try discriminate.
    intros [= <-]. now eexists.
Qed.

(** *** The resolver on a NON_NULL and on a LIST *)

(** C1.  Let [X] be a type reference that is not NON_NULL and [m] a node of
    kind NON_NULL around it.  The resolver returns on [X] a string that
    begins with the marker ['*'], and on the NON_NULL node that string
    without its first character: the check of that node passes and its
    panic is not raised.  More generally, whatever [X] is, whenever the
    resolver returns on [X] the string begins with the marker and the
    NON_NULL node gives it without the marker; and a panic on [X] is a
    panic raised inside [X], handed on by the node. *)
Theorem typeString_NON_NULL_strips_marker (m : object) (X : json) :
  mapIndex "kind" m = JStr "NON_NULL" ->
  mapIndex "ofType" m = X ->
  kindIs X "NON_NULL" = false ->
  (typeRef X = true ->
   exists r, typeString X = Ok (String "*" r) /\ typeString (JObj m) = Ok r)
  /\ (forall s, typeString X = Ok s ->
        exists r, s = String "*" r /\ typeString (JObj m) = Ok r)
  /\ (forall p, typeString X = Panic p -> typeString (JObj m) = Panic p).
Proof.
  intros Hkind Hof HX.
  assert (Hstrip : forall s, typeString X = Ok s ->
            exists r, s = String "*" r /\ typeString (JObj m) = Ok r).
  { intros s Hs. destruct (typeString_marker X s HX Hs) as [r ->].
    exists r. split; [reflexivity|].
    rewrite typeString_unfold, Hkind, Hof, Hs. cbn [isStr bind].
    rewrite String.eqb_refl.
    replace (HasPrefix (String "*" r) "*") with true
      by (symmetry; apply HasPrefix_star; now exists r).
    reflexivity. }
  split; [|split].
  - intros Href. destruct (typeString_typeRef X Href) as (s & Hs & _).
    destruct (Hstrip s Hs) as (r & -> & Hr). now exists r.
  - exact Hstrip.
  - intros p Hp. rewrite typeString_unfold, Hkind, Hof, Hp. reflexivity.
Qed.

Lemma typeString_NON_NULL_strips_marker_witness :
  exists r, typeString (LIST (named "SCALAR" "Int")) = Ok (String "*" r)
            /\ typeString (NON_NULL (LIST (named "SCALAR" "Int"))) = Ok r.
Proof.
  apply (proj1 (typeString_NON_NULL_strips_marker
                  [("kind", JStr "NON_NULL"); ("name", JNull);
                   ("ofType", LIST (named "SCALAR" "Int"))]
                  (LIST (named "SCALAR" "Int")) eq_refl eq_refl eq_refl)).
  reflexivity.
Defined.

(** C2.  On a node [m] of kind LIST around a type reference [X] the
    resolver returns the marker ['*'], then ["[]"], then the string it
    returns on [X].  Whatever [X] is, the node gives the marker and ["[]"]
    in front of what the resolver gives on [X], and a panic on [X] is the
    panic of the node. *)
Theorem typeString_LIST (m : object) (X : json) :
  mapIndex "kind" m = JStr "LIST" ->
  mapIndex "ofType" m = X ->
  (typeRef X = true ->
   typeRef (JObj m) = true
   /\ exists s, typeString X = Ok s
                /\ typeString (JObj m) = Ok ("*" ++ "[]" ++ s))
  /\ typeString (JObj m) = (s <- typeString X ;; Ok ("*" ++ "[]" ++ s)).
Proof.
  intros Hkind Hof.
  assert (Heq : typeString (JObj m)
                = (s <- typeString X ;; Ok ("*" ++ "[]" ++ s)))
    by (rewrite typeString_unfold, Hkind, Hof; reflexivity).
  split; [|exact Heq].
  intros Href. split.
  - rewrite typeRef_unfold, Hkind, Hof. exact Href.
  - destruct (typeString_typeRef X Href) as (s & Hs & _).
    exists s. split; [exact Hs|]. now rewrite Heq, Hs.
Qed.

Lemma typeString_LIST_witness :
  typeRef (LIST (NON_NULL (named "OBJECT" "User"))) = true
  /\ exists s, typeString (NON_NULL (named "OBJECT" "User")) = Ok s
               /\ typeString (LIST (NON_NULL (named "OBJECT" "User")))
                  = Ok ("*" ++ "[]" ++ s).
Proof.
  apply (proj1 (typeString_LIST
                  [("kind", JStr "LIST"); ("name", JNull);
                   ("ofType", NON_NULL (named "OBJECT" "User"))]
                  (NON_NULL (named "OBJECT" "User")) eq_refl eq_refl)).
  reflexivity.
Defined.

(** *** Go strings: prefixes and suffixes *)

Lemma append_assoc (a b c : string) : (a ++ b) ++ c = a ++ (b ++ c).
Proof. induction a as [|x a IH]; simpl; [reflexivity | now rewrite IH]. Qed.

Lemma append_nil_r (a : string) : a ++ EmptyString = a.
Proof. induction a as [|x a IH]; simpl; [reflexivity | now rewrite IH]. Qed.

Lemma length_append (a b : string) :
  String.length (a ++ b) = String.length a + String.length b.
Proof. induction a as [|x a IH]; simpl; [reflexivity | now rewrite IH]. Qed.

Lemma append_inv_tail (a b c : string) : a ++ c = b ++ c -> a = b.
Proof.
  revert b. induction a as [|x a IH]; intros [|y b] H.
  - reflexivity.
  - apply (f_equal String.length) in H. simpl in H.
    rewrite length_append in H. lia.
  - apply (f_equal String.length) in H. simpl in H.
    rewrite length_append in H. lia.
  - simpl in H. injection H as -> H. f_equal. now apply IH.
Qed.

Lemma append_last_inv (a b : string) (c d : ascii) :
  a ++ String c EmptyString = b ++ String d EmptyString -> a = b /\ c = d.
Proof.
  revert b. induction a as [|x a IH]; intros [|y b] H; simpl in H.
  - injection H as ->. now split.
  - injection H as -> H. destruct b; discriminate H.
  - injection H as -> H. destruct a; discriminate H.
  - injection H as -> H. destruct (IH b H) as [-> ->]. now split.
Qed.

Lemma string_last (s : string) :
  s <> EmptyString -> exists q c, s = q ++ String c EmptyString.
Proof.
  induction s as [|x s IH]; intros Hne; [now elim Hne|].
  destruct s as [|y s].
  - now exists EmptyString, x.
  - destruct IH as (q & c & Hq); [discriminate|].
    exists (String x q), c. simpl. now rewrite <- Hq.
Qed.

Lemma substring_all (s : string) : substring 0 (String.length s) s = s.
Proof. induction s as [|x s IH]; simpl; [reflexivity | now rewrite IH]. Qed.

Lemma substring_append_r (r suf : string) :
  substring (String.length r) (String.length suf) (r ++ suf) = suf.
Proof.
  induction r as [|x r IH]; simpl; [apply substring_all | exact IH].
Qed.

Lemma substring_split (n : nat) (s : string) :
  n <= String.length s ->
  s = substring 0 n s ++ substring n (String.length s - n) s.
Proof.
  revert n. induction s as [|x s IH]; intros n Hn; simpl in Hn.
  - assert (n = 0) as -> by lia. reflexivity.
  - destruct n as [|n].
    + cbn [substring String.length Nat.sub append].
      now rewrite substring_all.
    + cbn [substring String.length Nat.sub append].
      f_equal. apply IH. lia.
Qed.

Lemma HasSuffix_iff (s suffix : string) :
  HasSuffix s suffix = true <-> exists r, s = r ++ suffix.
Proof.
  unfold HasSuffix. rewrite andb_true_iff, Nat.leb_le, String.eqb_eq. split.
  - intros [Hle Hsub].
    exists (substring 0 (String.length s - String.length suffix) s).
    pose proof (substring_split (String.length s - String.length suffix) s)
      as H.
    replace (String.length s - (String.length s - String.length suffix))
      with (String.length suffix) in H by lia.
    rewrite Hsub in H. apply H. lia.
  - intros [r ->]. rewrite length_append. split; [lia|].
    replace (String.length r + String.length suffix - String.length suffix)
      with (String.length r) by lia.
    apply substring_append_r.
Qed.

Lemma HasSuffix_append (r suffix : string) : HasSuffix (r ++ suffix) suffix = true.
Proof. apply HasSuffix_iff. now exists r. Qed.

(** The last byte of [a ++ b] is that of [b], when [b] has one. *)
Lemma HasSuffix_append_l (a b : string) (c : ascii) :
  b <> EmptyString -> HasSuffix (a ++ b) (String c EmptyString) = HasSuffix b (String c EmptyString).
Proof.
  intros Hb. apply eq_true_iff_eq. rewrite !HasSuffix_iff. split.
  - intros [r Hr]. destruct (string_last b Hb) as (q & d & ->).
    rewrite <- append_assoc in Hr. apply append_last_inv in Hr as [_ ->].
    now exists q.
  - intros [r ->]. exists (a ++ r). now rewrite append_assoc.
Qed.

(** [q ++ "."] ends with two periods when [q] ends with one. *)
Lemma HasSuffix_two_periods (q : string) :
  HasSuffix (q ++ ".") ".." = HasSuffix q ".".
Proof.
  apply eq_true_iff_eq. rewrite !HasSuffix_iff. split.
  - intros [r Hr]. exists r.
    change ".." with ("." ++ ".") in Hr. rewrite <- append_assoc in Hr.
    now apply append_inv_tail in Hr.
  - intros [r ->]. exists r. now rewrite append_assoc.
Qed.

Lemma HasSuffix_two_one (s : string) :
  HasSuffix s ".." = true -> HasSuffix s "." = true.
Proof.
  rewrite !HasSuffix_iff. intros [r ->]. exists (r ++ ".").
  now rewrite append_assoc.
Qed.

(** *** endSentence *)

Lemma withVerb_cases (s : string) :
  exists verb,
    withVerb s = verb ++ s
    /\ ((verb = "is an " /\ HasPrefix s "autogenerated " = true)
        \/ (verb = EmptyString /\ HasPrefix s "autogenerated " = false
            /\ HasPrefix s "specifies " = true)
        \/ (verb = "represents " /\ HasPrefix s "autogenerated " = false
            /\ HasPrefix s "specifies " = false)).
Proof.
  unfold withVerb.
  destruct (HasPrefix s "autogenerated ") eqn:Ha.
  - exists "is an ". split; [reflexivity|]. left. now split.
  - destruct (HasPrefix s "specifies ") eqn:Hs.
    + exists EmptyString. split; [reflexivity|]. right. left. now repeat split.
    + exists "represents ". split; [reflexivity|]. right. right.
      now repeat split.
Qed.

Lemma withPeriod_cases (s : string) :
  exists dot,
    withPeriod s = s ++ dot
    /\ ((dot = EmptyString /\ HasSuffix s "." = true)
        \/ (dot = "." /\ HasSuffix s "." = false)).
Proof.
  unfold withPeriod. destruct (HasSuffix s ".") eqn:H; simpl.
  - exists EmptyString. rewrite append_nil_r. split; [reflexivity|]. left. now split.
  - exists ".". split; [reflexivity|]. right. now split.
Qed.

Lemma withPeriod_ends (s : string) : HasSuffix (withPeriod s) "." = true.
Proof.
  unfold withPeriod. destruct (HasSuffix s ".") eqn:H; simpl.
  - exact H.
  - apply HasSuffix_append.
Qed.

(** The verb put in front does not change how many periods end the text. *)
Lemma withVerb_suffix (s : string) (c : ascii) :
  c = "."%char ->
  HasSuffix (withVerb s) (String c EmptyString) = HasSuffix s (String c EmptyString).
Proof.
  intros ->. destruct (withVerb_cases s) as (verb & -> & Hv).
  destruct s as [|x s].
  - rewrite append_nil_r.
    destruct Hv as [[-> _]|[[-> _]|[-> _]]]; reflexivity.
  - apply HasSuffix_append_l. discriminate.
Qed.

Lemma withPeriod_two_periods (s : string) :
  HasSuffix (withPeriod s) ".." = HasSuffix s "..".
Proof.
  unfold withPeriod. destruct (HasSuffix s ".") eqn:H; simpl.
  - reflexivity.
  - rewrite HasSuffix_two_periods, H.
    destruct (HasSuffix s "..") eqn:H2; [|reflexivity].
    apply HasSuffix_two_one in H2. congruence.
Qed.

Lemma withVerb_two_periods (s : string) :
  HasSuffix (withVerb s) ".." = HasSuffix s "..".
Proof.
  destruct (HasSuffix s ".") eqn:H1.
  - apply HasSuffix_iff in H1 as [q ->].
    destruct (withVerb_cases (q ++ ".")) as (verb & -> & Hv).
    rewrite <- append_assoc, !HasSuffix_two_periods.
    destruct q as [|x q].
    + rewrite append_nil_r.
      destruct Hv as [[-> _]|[[-> _]|[-> _]]]; reflexivity.
    + apply HasSuffix_append_l. discriminate.
  - assert (H2 : HasSuffix s ".." = false).
    { destruct (HasSuffix s "..") eqn:H2; [|reflexivity].
      apply HasSuffix_two_one in H2. congruence. }
    rewrite H2.
    destruct (HasSuffix (withVerb s) "..") eqn:H3; [|reflexivity].
    apply HasSuffix_two_one in H3.
    rewrite (withVerb_suffix s "."%char eq_refl) in H3. congruence.
Qed.

(** C6, as amended.  On a description that is not empty [endSentence]
    returns.  With [low] the description after its first byte went through
    [strings.ToLower] (an ASCII capital becomes its small letter, any other
    ASCII byte stays), the result is [low] behind ["is an "] when [low]
    starts with ["autogenerated "], [low] itself when it starts with
    ["specifies "], and [low] behind ["represents "] otherwise, followed by
    a period exactly when [low] does not end with one.  So the result ends
    with a period; it ends with two exactly when [low] does. *)
Theorem endSentence_spec (L : GoLib) (s : string) :
  s <> EmptyString ->
  exists c rest verb dot,
    s = String c rest
    /\ (isASCII c = true -> ToLower1 L c = String (lowerASCII c) EmptyString)
    /\ let low := ToLower1 L c ++ rest in
       endSentence L s = Ok (verb ++ low ++ dot)
       /\ ((verb = "is an " /\ HasPrefix low "autogenerated " = true)
           \/ (verb = EmptyString /\ HasPrefix low "autogenerated " = false
               /\ HasPrefix low "specifies " = true)
           \/ (verb = "represents " /\ HasPrefix low "autogenerated " = false
               /\ HasPrefix low "specifies " = false))
       /\ ((dot = EmptyString /\ HasSuffix low "." = true)
           \/ (dot = "." /\ HasSuffix low "." = false))
       /\ HasSuffix (verb ++ low ++ dot) "." = true
       /\ HasSuffix (verb ++ low ++ dot) ".." = HasSuffix low "..".
Proof.
  intros Hne. destruct s as [|c rest]; [now elim Hne|].
  set (low := ToLower1 L c ++ rest).
  destruct (withVerb_cases low) as (verb & Hverb & Hv).
  destruct (withPeriod_cases (withVerb low)) as (dot & Hdot & Hd).
  exists c, rest, verb, dot. split; [reflexivity|]. split.
  - intros Hc. unfold ToLower1. now rewrite Hc.
  - cbv zeta. fold low.
    assert (Hres : withPeriod (withVerb low) = verb ++ low ++ dot)
      by (rewrite Hdot, Hverb; apply append_assoc).
    rewrite (withVerb_suffix low "."%char eq_refl) in Hd.
    repeat split.
    + unfold endSentence. fold low. now rewrite Hres.
    + exact Hv.
    + exact Hd.
    + rewrite <- Hres. apply withPeriod_ends.
    + rewrite <- Hres. rewrite withPeriod_two_periods.
      apply withVerb_two_periods.
Qed.

Lemma endSentence_spec_witness :
  exists c rest verb dot,
    "Autogenerated input type of AddComment" = String c rest
    /\ (isASCII c = true -> ToLower1 stableLib c = String (lowerASCII c) EmptyString)
    /\ let low := ToLower1 stableLib c ++ rest in
       endSentence stableLib "Autogenerated input type of AddComment"
       = Ok (verb ++ low ++ dot)
       /\ ((verb = "is an " /\ HasPrefix low "autogenerated " = true)
           \/ (verb = EmptyString /\ HasPrefix low "autogenerated " = false
               /\ HasPrefix low "specifies " = true)
           \/ (verb = "represents " /\ HasPrefix low "autogenerated " = false
               /\ HasPrefix low "specifies " = false))
       /\ ((dot = EmptyString /\ HasSuffix low "." = true)
           \/ (dot = "." /\ HasSuffix low "." = false))
       /\ HasSuffix (verb ++ low ++ dot) "." = true
       /\ HasSuffix (verb ++ low ++ dot) ".." = HasSuffix low "..".
Proof.
  apply (endSentence_spec stableLib "Autogenerated input type of AddComment").
  discriminate.
Defined.

(** C6, as stated, fails on ["Done.."]: the result ends with two periods. *)
Lemma endSentence_keeps_two_periods :
  endSentence stableLib "Done.." = Ok "represents done.."
  /\ HasSuffix "represents done.." ".." = true.
Proof. split; reflexivity. Qed.

(** C10.  [endSentence] panics on the empty description, at [s[0:1]], and on
    no other; it returns a string exactly on the descriptions that are not
    empty. *)
Theorem endSentence_empty_panics (L : GoLib) (s : string) :
  (endSentence L s = Panic SliceBounds <-> s = EmptyString)
  /\ ((exists r, endSentence L s = Ok r) <-> s <> EmptyString).
Proof.
  destruct s as [|c rest]; simpl; split; split;
    try reflexivity; try discriminate; try congruence.
  - intros [r H]. discriminate H.
  - intros _. eexists. reflexivity.
Qed.

(** *** Executing a range *)

Lemma bind_Ok {A B : Type} (r : result A) (k : A -> result B) (b : B) :
  (x <- r ;; k x) = Ok b -> exists a, r = Ok a /\ k a = Ok b.
Proof. destruct r as [a| |p]; simpl; [eauto | discriminate | discriminate]. Qed.

Lemma bind_assoc {A B C : Type} (r : result A) (k : A -> result B)
      (h : B -> result C) :
  (y <- (x <- r ;; k x) ;; h y) = (x <- r ;; y <- k x ;; h y).
Proof. now destruct r. Qed.

Lemma call_Ok (L : GoLib) {A : Type} (r : result A) (a : A) :
  call L r = Ok a -> r = Ok a.
Proof.
  destruct r as [x| |p]; simpl; [easy | easy |].
  destruct (recovers_panics L); discriminate.
Qed.

(** Splits a hypothesis [(x <- r ;; k) = Ok v] into its steps. *)
Tactic Notation "bind_inv" hyp(H) "as" ident(a) ident(Ha) :=
  apply bind_Ok in H as (a & Ha & H).

Lemma rangeExec_ext {A : Type} (f g : A -> result string) (l : list A) :
  (forall x, f x = g x) -> rangeExec f l = rangeExec g l.
Proof.
  intros Hfg. induction l as [|x l IH]; simpl; [reflexivity|].
  now rewrite Hfg, IH.
Qed.

(** A range whose body is an [{{if}}] renders the elements the condition
    holds of, in their order. *)
Lemma rangeExec_select {A : Type} (sel : A -> result bool) (p : A -> bool)
      (g : A -> result string) (l : list A) (text : string) :
  (forall x b, sel x = Ok b -> b = p x) ->
  rangeExec (fun x => b <- sel x ;; if b then g x else Ok EmptyString) l = Ok text ->
  exists parts, mapM g (filter p l) = Ok parts /\ text = joinAll parts.
Proof.
  intros Hsel. revert text. induction l as [|x l IH]; intros text H.
  - simpl in H. injection H as <-. now exists [].
  - cbn [rangeExec] in H. bind_inv H as s Hs. bind_inv H as r Hr.
    injection H as <-.
    destruct (IH _ Hr) as (parts & Hparts & ->).
    bind_inv Hs as b Hb. rewrite (Hsel _ _ Hb) in Hs. cbn [filter].
    destruct (p x).
    + exists (s :: parts). cbn [mapM]. rewrite Hs, Hparts. now split.
    + injection Hs as <-. now exists parts.
Qed.

Lemma mapM_wrap {A : Type} (g : A -> result string) (wrap : string -> string)
      (l : list A) (parts : list string) :
  mapM (fun x => d <- g x ;; Ok (wrap d)) l = Ok parts ->
  exists decls, mapM g l = Ok decls /\ parts = map wrap decls.
Proof.
  revert parts. induction l as [|x l IH]; intros parts H.
  - injection H as <-. now exists [].
  - cbn [mapM] in H. bind_inv H as y Hy. bind_inv H as ys Hys.
    injection H as <-. bind_inv Hy as d Hd. injection Hy as <-.
    destruct (IH _ Hys) as (decls & Hdecls & ->).
    exists (d :: decls). cbn [mapM]. rewrite Hd, Hdecls. now split.
Qed.

(** *** The conditions of the templates *)

Lemma eq_string_spec (L : GoLib) (v : json) (c : string) (b : bool) :
  eq_string L v c = Ok b -> b = isStr v c.
Proof.
  destruct v; cbn [eq_string isStr]; try discriminate.
  - destruct (eq_accepts_nil L); [|discriminate]. now intros [= <-].
  - now intros [= <-].
Qed.

Lemma field_Ok (k : string) (t v : json) :
  field k t = Ok v -> exists m, t = JObj m /\ v = mapIndex k m.
Proof.
  destruct t as [| | | | |m]; try discriminate.
  intros [= <-]. now exists m.
Qed.

Lemma stringArg_Ok (v : json) (s : string) : stringArg v = Ok s -> v = JStr s.
Proof. destruct v; try discriminate. now intros [= <-]. Qed.

Lemma isPublicEnum_spec (L : GoLib) (t : json) (b : bool) :
  isPublicEnum L t = Ok b -> b = declaresEnum t.
Proof.
  unfold isPublicEnum, declaresEnum. intros H.
  bind_inv H as kind Hkind. bind_inv H as e He.
  apply field_Ok in Hkind as (m & -> & ->).
  apply eq_string_spec in He. cbn [kindIs nameOf]. rewrite <- He.
  destruct (and_short_circuits L && negb e) eqn:Hsc.
  - injection H as <-. apply andb_true_iff in Hsc as [_ Hk].
    apply negb_true_iff in Hk. now rewrite Hk.
  - bind_inv H as name Hname. bind_inv H as n Hn. injection H as <-.
    apply field_Ok in Hname as (m' & [= <-] & ->).
    apply stringArg_Ok in Hn. now rewrite Hn.
Qed.

Lemma inputKind_spec (L : GoLib) (t : json) (b : bool) :
  (kind <- field "kind" t ;; eq_string L kind "INPUT_OBJECT") = Ok b ->
  b = declaresInput t.
Proof.
  unfold declaresInput. intros H. bind_inv H as kind Hkind.
  apply field_Ok in Hkind as (m & -> & ->).
  now apply eq_string_spec in H.
Qed.

Lemma dig_entry (k : string) (m : object) : dig (entry k m) = mapIndex k m.
Proof.
  induction m as [|[k' v] m IH]; [reflexivity|]. cbn [entry mapIndex].
  destruct (String.eqb k k'); [reflexivity | exact IH].
Qed.

Lemma required_spec (L : GoLib) (f : json) (b : bool) :
  (kind <- fieldTypeKind f ;; eq_string L kind "NON_NULL") = Ok b ->
  b = isRequired f.
Proof.
  unfold fieldTypeKind, isRequired. intros H.
  bind_inv H as kind Hkind. bind_inv Hkind as ty Hty.
  bind_inv Hkind as k Hk. injection Hkind as <-.
  destruct f as [| | | | |m]; try discriminate Hty.
  cbn [chainField] in Hty. injection Hty as <-.
  apply eq_string_spec in H. rewrite H, <- (dig_entry "type" m).
  destruct (entry "type" m) as [|ty].
  - now injection Hk as <-.
  - destruct ty as [| | | | |mt]; try discriminate Hk.
    injection Hk as <-. cbn [dig kindIs]. now rewrite dig_entry.
Qed.

Lemma optional_spec (L : GoLib) (f : json) (b : bool) :
  (kind <- fieldTypeKind f ;; ne_string L kind "NON_NULL") = Ok b ->
  b = negb (isRequired f).
Proof.
  unfold ne_string. rewrite <- bind_assoc. intros H. bind_inv H as e He.
  injection H as <-. f_equal. now apply (required_spec L).
Qed.

(** *** The fields of an input object *)

(** C4.  When [{{define "inputObject"}}] renders a type whose [inputFields]
    is the sequence [fs], the struct it renders holds, after its opening
    line, the declarations of the fields of [fs] whose type reference has
    kind NON_NULL, in the order of [fs], then a line break, then the
    declarations of the fields of [fs] whose type reference has another
    kind, in the order of [fs], then the closing brace. *)
Theorem inputObject_required_fields_first (L : GoLib) (m : object)
        (fs : list json) (text : string) :
  mapIndex "inputFields" m = JArr fs ->
  inputObject L (JObj m) = Ok text ->
  exists first required optional,
    (exists d, mapIndex "description" m = JStr d
               /\ endSentence L d = Ok first)
    /\ mapM (fun f => fieldDecl L f " (Required.)" EmptyString) (filter isRequired fs)
       = Ok required
    /\ mapM (fun f => fieldDecl L f " (Optional.)" ",omitempty")
            (filter (fun f => negb (isRequired f)) fs)
       = Ok optional
    /\ text = "// " ++ print L (mapIndex "name" m) ++ " " ++ first ++ nl
              ++ "type " ++ print L (mapIndex "name" m) ++ " struct {"
              ++ joinAll required ++ nl
              ++ joinAll optional ++ nl
              ++ "}".
Proof.
  intros Hfs H. unfold inputObject in H. cbn [field bind] in H.
  rewrite Hfs in H. bind_inv H as d Hd. bind_inv H as first Hfirst.
  cbn [rangeOver bind] in H.
  bind_inv H as required0 E1. bind_inv H as optional0 E2. injection H as <-.
  rewrite (rangeExec_ext _
             (fun f => b <- (kind <- fieldTypeKind f ;;
                             eq_string L kind "NON_NULL") ;;
                       if b then fieldDecl L f " (Required.)" EmptyString else Ok EmptyString))
    in E1 by (intros x; unfold requiredField; now rewrite bind_assoc).
  rewrite (rangeExec_ext _
             (fun f => b <- (kind <- fieldTypeKind f ;;
                             ne_string L kind "NON_NULL") ;;
                       if b then fieldDecl L f " (Optional.)" ",omitempty"
                       else Ok EmptyString))
    in E2 by (intros x; unfold optionalField; now rewrite bind_assoc).
  apply (rangeExec_select _ isRequired) in E1 as (required & Hreq & ->);
    [|exact (required_spec L)].
  apply (rangeExec_select _ (fun f => negb (isRequired f))) in E2
    as (optional & Hopt & ->); [|exact (optional_spec L)].
  exists first, required, optional. repeat split; try assumption.
  destruct (mapIndex "description" m) as [| | |d'| |]; try discriminate Hd.
  injection Hd as <-. exists d'. split; [reflexivity|].
  now apply call_Ok in Hfirst.
Qed.

Lemma inputObject_required_fields_first_witness :
  exists first required optional,
    (exists d, mapIndex "description" addCommentFields = JStr d
               /\ endSentence stableLib d = Ok first)
    /\ mapM (fun f => fieldDecl stableLib f " (Required.)" EmptyString)
            (filter isRequired addCommentInputFields)
       = Ok required
    /\ mapM (fun f => fieldDecl stableLib f " (Optional.)" ",omitempty")
            (filter (fun f => negb (isRequired f)) addCommentInputFields)
       = Ok optional
    /\ addCommentStruct
       = "// " ++ print stableLib (mapIndex "name" addCommentFields) ++ " "
              ++ first ++ nl
              ++ "type " ++ print stableLib (mapIndex "name" addCommentFields)
              ++ " struct {"
              ++ joinAll required ++ nl
              ++ joinAll optional ++ nl
              ++ "}".
Proof.
  apply (inputObject_required_fields_first stableLib addCommentFields
           addCommentInputFields addCommentStruct); reflexivity.
Defined.

(** *** What each file declares *)

(** C3, as amended.  When enum.go renders, its text is the header and then,
    for each type of the sorted slice that has kind ENUM and a name that
    does not begin with ["__"], in the order of the slice, the rendering of
    [{{define "enum"}}] between two line breaks; no type with a reserved
    name is declared there.  When input.go renders, its text is the header
    and then, for each type of the sorted slice that has kind
    INPUT_OBJECT, whatever its name, the rendering of
    [{{define "inputObject"}}] between two line breaks. *)
Theorem templates_declare_by_kind (L : GoLib) (doc : json) :
  (forall text doc',
      enum_go L doc = Ok (text, doc') ->
      exists types sorted decls,
        typesOf L doc = Ok types
        /\ sortByName L types = Ok sorted
        /\ mapM (enum L) (filter declaresEnum sorted) = Ok decls
        /\ text = enumHeader
                  ++ joinAll (map (fun d => nl ++ d ++ nl) decls)
        /\ Forall (fun t => kindIs t "ENUM" = true
                            /\ exists n, nameOf t = Ok n
                                         /\ internal n = false)
                  (filter declaresEnum sorted))
  /\ (forall text doc',
         input_go L doc = Ok (text, doc') ->
         exists types names sorted decls,
           typesOf L doc = Ok types
           /\ (exists all, typesArg doc = Ok all
                           /\ inputObjects all = Ok names)
           /\ sortByName L types = Ok sorted
           /\ mapM (inputObject L) (filter declaresInput sorted) = Ok decls
           /\ text = inputHeader names
                     ++ joinAll (map (fun d => nl ++ d ++ nl) decls)
           /\ Forall (fun t => kindIs t "INPUT_OBJECT" = true)
                     (filter declaresInput sorted)).
Proof.
  split; intros text doc' H.
  - unfold enum_go in H. bind_inv H as types Htypes.
    bind_inv H as sorted Hsorted. bind_inv H as body Hbody.
    injection H as <- <-. apply call_Ok in Hsorted.
    apply (rangeExec_select _ declaresEnum) in Hbody
      as (parts & Hparts & ->); [|exact (isPublicEnum_spec L)].
    apply mapM_wrap in Hparts as (decls & Hdecls & ->).
    exists types, sorted, decls. repeat split; try assumption.
    apply Forall_forall. intros t Ht. apply filter_In in Ht as [_ Ht].
    { unfold declaresEnum in Ht. apply andb_true_iff in Ht as [Hk Hn].
      split; [exact Hk|]. destruct (nameOf t) as [n| |p]; try discriminate.
      exists n. split; [reflexivity|]. now apply negb_true_iff. }
  - unfold input_go in H. bind_inv H as all Hall.
    bind_inv H as names Hnames. bind_inv H as types Htypes.
    bind_inv H as sorted Hsorted.
    bind_inv H as body E3. injection H as <- <-.
    apply call_Ok in Hnames, Hsorted.
    rewrite (rangeExec_ext _
               (fun t => b <- (kind <- field "kind" t ;;
                               eq_string L kind "INPUT_OBJECT") ;;
                         if b then (d <- inputObject L t ;; Ok (nl ++ d ++ nl))
                         else Ok EmptyString))
      in E3 by (intros x; unfold inputEntry; now rewrite bind_assoc).
    apply (rangeExec_select _ declaresInput) in E3 as (parts & Hparts & ->);
      [|exact (inputKind_spec L)].
    apply mapM_wrap in Hparts as (decls & Hdecls & ->).
    exists types, names, sorted, decls.
    split; [exact Htypes|]. split; [now exists all|].
    repeat split; try assumption.
    apply Forall_forall. intros t Ht. now apply filter_In in Ht as [_ Ht].
Qed.

Lemma templates_declare_by_kind_witness :
  exists types sorted decls,
    typesOf stableLib smallSchema = Ok types
    /\ sortByName stableLib types = Ok sorted
    /\ mapM (enum stableLib) (filter declaresEnum sorted) = Ok decls
    /\ smallEnumText = enumHeader
                       ++ joinAll (map (fun d => nl ++ d ++ nl) decls)
    /\ Forall (fun t => kindIs t "ENUM" = true
                        /\ exists n, nameOf t = Ok n /\ internal n = false)
              (filter declaresEnum sorted).
Proof.
  apply (proj1 (templates_declare_by_kind stableLib smallSchema)
               smallEnumText (withTypes smallSchema [addCommentInput; issueState])).
  vm_compute. reflexivity.
Defined.

(** C3, as stated, fails for input.go: an INPUT_OBJECT named ["__Hidden"]
    is declared there, and named in the header, while enum.go leaves out
    the ENUM named ["__TypeKind"] of the same document. *)
Lemma input_go_declares_reserved_name :
  internal "__Hidden" = true
  /\ (r <- input_go stableLib reservedSchema ;; Ok (fst r))
     = Ok (inputHeader ["__Hidden"]
             ++ nl ++ "// __Hidden represents a reserved input." ++ nl
             ++ "type __Hidden struct {" ++ nl
             ++ nl
             ++ "}" ++ nl)
  /\ (r <- enum_go stableLib reservedSchema ;; Ok (fst r)) = Ok enumHeader.
Proof. repeat split; vm_compute; reflexivity. Qed.

(** *** The order of Go strings *)

Lemma ascii_compare_refl (a : ascii) : Ascii.compare a a = Eq.
Proof. apply N.compare_refl. Qed.

Lemma ascii_compare_lt_trans (a b c : ascii) :
  Ascii.compare a b = Lt -> Ascii.compare b c = Lt -> Ascii.compare a c = Lt.
Proof.
  unfold Ascii.compare. rewrite !N.compare_lt_iff. apply N.lt_trans.
Qed.

Lemma string_compare_refl (s : string) : String.compare s s = Eq.
Proof.
  induction s as [|c s IH]; simpl; [reflexivity|].
  now rewrite ascii_compare_refl.
Qed.

Lemma string_compare_lt_trans (a b c : string) :
  String.compare a b = Lt -> String.compare b c = Lt ->
  String.compare a c = Lt.
Proof.
  revert b c. induction a as [|x a IH]; intros [|y b] [|z c]; simpl;
    try discriminate; try reflexivity.
  destruct (Ascii.compare x y) eqn:Hxy; try discriminate;
    destruct (Ascii.compare y z) eqn:Hyz; try discriminate; intros H1 H2.
  - apply Ascii.compare_eq_iff in Hxy, Hyz. subst.
    rewrite ascii_compare_refl. now apply (IH b).
  - apply Ascii.compare_eq_iff in Hxy. subst. now rewrite Hyz.
  - apply Ascii.compare_eq_iff in Hyz. subst. now rewrite Hxy.
  - now rewrite (ascii_compare_lt_trans x y z).
Qed.

Lemma ltb_irrefl (s : string) : String.ltb s s = false.
Proof. unfold String.ltb. now rewrite string_compare_refl. Qed.

Lemma ltb_trans (a b c : string) :
  String.ltb a b = true -> String.ltb b c = true -> String.ltb a c = true.
Proof.
  unfold String.ltb.
  destruct (String.compare a b) eqn:H1; try discriminate.
  destruct (String.compare b c) eqn:H2; try discriminate.
  now rewrite (string_compare_lt_trans a b c).
Qed.

Lemma ltb_false_leb (a b : string) :
  String.ltb b a = false <-> String.leb a b = true.
Proof.
  unfold String.ltb, String.leb. rewrite (String.compare_antisym b a).
  destruct (String.compare a b); simpl; split; congruence.
Qed.

Lemma leb_trans (a b c : string) :
  String.leb a b = true -> String.leb b c = true -> String.leb a c = true.
Proof.
  unfold String.leb.
  destruct (String.compare a b) eqn:H1; try discriminate;
    destruct (String.compare b c) eqn:H2; try discriminate; intros _ _.
  - apply String.compare_eq_iff in H1, H2. subst.
    now rewrite string_compare_refl.
  - apply String.compare_eq_iff in H1. subst. now rewrite H2.
  - apply String.compare_eq_iff in H2. subst. now rewrite H1.
  - now rewrite (string_compare_lt_trans a b c).
Qed.

Lemma leb_neq_ltb (a b : string) :
  String.leb a b = true -> a <> b -> String.ltb a b = true.
Proof.
  unfold String.leb, String.ltb.
  destruct (String.compare a b) eqn:H; try discriminate; try reflexivity.
  apply String.compare_eq_iff in H. congruence.
Qed.

Lemma lessName_order : StrictWeakOrder lessName.
Proof.
  unfold lessName. repeat split.
  - intros a. apply ltb_irrefl.
  - intros a b c. apply ltb_trans.
  - intros a b c Hab Hbc. apply ltb_false_leb.
    apply ltb_false_leb in Hab, Hbc. now apply (leb_trans _ (fst b)).
Qed.

(** *** The two sorts keep the contract *)

Lemma StronglySorted_app (A : Type) (R : A -> A -> Prop) (l1 l2 : list A) :
  StronglySorted R l1 -> StronglySorted R l2 ->
  (forall a b, In a l1 -> In b l2 -> R a b) ->
  StronglySorted R (l1 ++ l2)%list.
Proof.
  intros H1 H2 H12. induction H1 as [|a l1 Hs IH Ha]; simpl; [exact H2|].
  constructor.
  - apply IH. intros x y Hx Hy. apply H12; [now right | exact Hy].
  - apply Forall_app. split; [exact Ha|].
    apply Forall_forall. intros y Hy. apply H12; [now left | exact Hy].
Qed.

Lemma StronglySorted_rev (A : Type) (R : A -> A -> Prop) (l : list A) :
  StronglySorted R l -> StronglySorted (fun a b => R b a) (rev l).
Proof.
  induction 1 as [|a l Hs IH Ha]; simpl; [constructor|].
  apply StronglySorted_app; [exact IH | constructor; constructor |].
  intros x y Hx [<-|[]]. apply in_rev in Hx.
  now apply (proj1 (Forall_forall _ _) Ha).
Qed.

Section SortFacts.
Variable A : Type.
Variable less : A -> A -> bool.

Lemma insertBack_perm (x : A) (before : list A) :
  Permutation (x :: before) (insertBack A less x before).
Proof.
  induction before as [|y rest IH]; simpl; [reflexivity|].
  destruct (less x y); [|reflexivity].
  rewrite perm_swap. now constructor.
Qed.

Lemma insertAll_perm (l acc : list A) :
  Permutation (l ++ acc)%list
              (fold_left (fun before x => insertBack A less x before) l acc).
Proof.
  revert acc. induction l as [|x l IH]; intros acc; simpl; [reflexivity|].
  rewrite <- IH. rewrite <- insertBack_perm. apply Permutation_middle.
Qed.

Lemma insertionSort_perm (l : list A) : Permutation l (insertionSort A less l).
Proof.
  unfold insertionSort. rewrite <- Permutation_rev.
  rewrite <- insertAll_perm. now rewrite app_nil_r.
Qed.

Lemma gapPass_perm (window rest : list A) :
  Permutation (window ++ rest)%list (gapPass A less window rest).
Proof.
  revert window. induction rest as [|x rest IH]; intros window; simpl.
  - now rewrite app_nil_r.
  - destruct window as [|y window]; simpl.
    + constructor. apply (IH []).
    + destruct (less x y).
      * rewrite <- IH, <- app_assoc. simpl.
        apply Permutation_trans with (x :: y :: window ++ rest)%list.
        -- symmetry. apply (Permutation_middle (y :: window) rest x).
        -- constructor. apply Permutation_middle.
      * rewrite <- IH. rewrite <- app_assoc. reflexivity.
Qed.

Lemma shellInsertionSort_perm (l : list A) :
  Permutation l (shellInsertionSort A less l).
Proof.
  unfold shellInsertionSort. rewrite <- insertionSort_perm.
  rewrite <- gapPass_perm. now rewrite firstn_skipn.
Qed.

Hypothesis Hless : StrictWeakOrder less.

Lemma less_asym (a b : A) : less a b = true -> less b a = false.
Proof.
  destruct Hless as (Hirr & Htr & _). intros Hab.
  destruct (less b a) eqn:Hba; [|reflexivity].
  rewrite <- (Hirr a). symmetry. now apply (Htr a b a).
Qed.

(** In [before] the nearest element comes first: no element is less than
    one that follows it in that list. *)
Lemma insertBack_sorted (x : A) (before : list A) :
  StronglySorted (fun a b => less a b = false) before ->
  StronglySorted (fun a b => less a b = false) (insertBack A less x before).
Proof.
  destruct Hless as (_ & _ & Hneg).
  induction before as [|y rest IH]; intros Hs; simpl.
  - constructor; constructor.
  - apply StronglySorted_inv in Hs as [Hrest Hy].
    destruct (less x y) eqn:Hxy.
    + constructor; [now apply IH|].
      apply (Permutation_Forall (insertBack_perm x rest)).
      constructor; [now apply less_asym | exact Hy].
    + constructor; [now constructor|].
      constructor; [exact Hxy|].
      apply Forall_forall. intros z Hz.
      apply (Hneg x y z Hxy). now apply (proj1 (Forall_forall _ _) Hy).
Qed.

Lemma insertAll_sorted (l acc : list A) :
  StronglySorted (fun a b => less a b = false) acc ->
  StronglySorted (fun a b => less a b = false)
                 (fold_left (fun before x => insertBack A less x before) l acc).
Proof.
  revert acc. induction l as [|x l IH]; intros acc Hacc; simpl;
    [exact Hacc|].
  apply IH. now apply insertBack_sorted.
Qed.

Lemma insertionSort_sorted (l : list A) :
  StronglySorted (fun a b => less b a = false) (insertionSort A less l).
Proof.
  unfold insertionSort.
  apply (StronglySorted_rev A (fun a b => less a b = false)).
  apply insertAll_sorted. constructor.
Qed.

End SortFacts.

Lemma stableLib_contract : SortContract stableLib.
Proof.
  intros A less l. split.
  - apply insertionSort_perm.
  - intros Hless. now apply insertionSort_sorted.
Qed.

Lemma shellLib_contract : SortContract shellLib.
Proof.
  intros A less l. split.
  - apply shellInsertionSort_perm.
  - intros Hless. now apply insertionSort_sorted.
Qed.

(** *** sortByName *)

Lemma StronglySorted_short (A : Type) (R : A -> A -> Prop) (l : list A) :
  List.length l < 2 -> StronglySorted R l.
Proof.
  destruct l as [|x [|y l]]; simpl; intros H; try lia.
  - constructor.
  - constructor; constructor.
Qed.

Lemma StronglySorted_filter (A : Type) (R : A -> A -> Prop) (p : A -> bool)
      (l : list A) :
  StronglySorted R l -> StronglySorted R (filter p l).
Proof.
  induction 1 as [|a l Hs IH Ha]; simpl; [constructor|].
  destruct (p a); [|exact IH].
  constructor; [exact IH|].
  apply Forall_forall. intros x Hx. apply filter_In in Hx as [Hx _].
  now apply (proj1 (Forall_forall _ _) Ha).
Qed.

Lemma StronglySorted_map (A B : Type) (R : A -> A -> Prop)
      (R' : B -> B -> Prop) (P : A -> Prop) (f : A -> B) (l : list A) :
  (forall a b, P a -> P b -> R a b -> R' (f a) (f b)) ->
  Forall P l -> StronglySorted R l -> StronglySorted R' (map f l).
Proof.
  intros HR HP Hs. induction Hs as [|a l Hs IH Ha]; simpl; [constructor|].
  apply Forall_cons_iff in HP as [Pa Pl].
  constructor; [now apply IH|].
  apply Forall_forall. intros y Hy. apply in_map_iff in Hy as (b & <- & Hb).
  apply HR; [exact Pa | | ].
  - now apply (proj1 (Forall_forall _ _) Pl).
  - now apply (proj1 (Forall_forall _ _) Ha).
Qed.

(** Ascending and without two equal keys is strictly ascending. *)
Lemma StronglySorted_strict (A K : Type) (R R' : A -> A -> Prop)
      (key : A -> K) (l : list A) :
  (forall a b, R a b -> key a <> key b -> R' a b) ->
  NoDup (map key l) -> StronglySorted R l -> StronglySorted R' l.
Proof.
  intros HR Hnd Hs. induction Hs as [|a l Hs IH Ha]; [constructor|].
  simpl in Hnd. apply NoDup_cons_iff in Hnd as [Hna Hnd].
  constructor; [now apply IH|].
  apply Forall_forall. intros b Hb. apply HR.
  - now apply (proj1 (Forall_forall _ _) Ha).
  - intros Heq. apply Hna. rewrite Heq. now apply in_map.
Qed.

Lemma mapM_named (types : list json) (names : list string) :
  mapM nameOf types = Ok names ->
  map snd (combine names types) = types
  /\ Forall (fun p => nameOf (snd p) = Ok (fst p)) (combine names types).
Proof.
  revert names. induction types as [|t types IH]; intros names H.
  - injection H as <-. split; [reflexivity | constructor].
  - cbn [mapM] in H. bind_inv H as n Hn. bind_inv H as ns Hns.
    injection H as <-. destruct (IH _ Hns) as [Hsnd Hall]. simpl. split.
    + now rewrite Hsnd.
    + now constructor.
Qed.

Lemma mapM_total {A B : Type} (f : A -> result B) (l : list A) :
  Forall (fun x => exists y, f x = Ok y) l -> exists ys, mapM f l = Ok ys.
Proof.
  induction 1 as [|x l [y Hy] _ [ys Hys]]; [now exists []|].
  exists (y :: ys). cbn [mapM]. now rewrite Hy, Hys.
Qed.

Lemma nameLeb_of_pairs (a b : string * json) :
  nameOf (snd a) = Ok (fst a) -> nameOf (snd b) = Ok (fst b) ->
  lessName b a = false -> nameLeb (snd a) (snd b) = true.
Proof.
  unfold nameLeb, lessName. intros -> ->. apply ltb_false_leb.
Qed.

Lemma nameLtb_of_nameLeb (a b : json) :
  nameLeb a b = true -> nameOf a <> nameOf b -> nameLtb a b = true.
Proof.
  unfold nameLeb, nameLtb.
  destruct (nameOf a) as [x| |]; try discriminate.
  destruct (nameOf b) as [y| |]; try discriminate.
  intros Hle Hne. apply leb_neq_ltb; congruence.
Qed.

Lemma sortByName_total (L : GoLib) (types : list json) :
  Forall (fun t => exists n, nameOf t = Ok n) types ->
  exists sorted, sortByName L types = Ok sorted.
Proof.
  intros Hnamed. unfold sortByName.
  destruct (List.length types <? 2)%nat; [now exists types|].
  destruct (mapM_total nameOf types Hnamed) as [names ->].
  eexists. reflexivity.
Qed.

(** What [sortByName] returns, under the contract of [sort.Slice]. *)
Lemma sortByName_sorted (L : GoLib) (types sorted : list json) :
  SortContract L ->
  sortByName L types = Ok sorted ->
  Permutation types sorted
  /\ StronglySorted (fun a b => nameLeb a b = true) sorted.
Proof.
  intros HL H. unfold sortByName in H.
  destruct (List.length types <? 2)%nat eqn:Hlen.
  - injection H as <-. split; [reflexivity|].
    apply StronglySorted_short. now apply Nat.ltb_lt.
  - bind_inv H as names Hnames. injection H as <-.
    destruct (mapM_named _ _ Hnames) as [Hsnd Hall].
    destruct (HL _ lessName (combine names types)) as [Hperm Hsorted].
    split.
    + rewrite <- Hsnd at 1. now apply Permutation_map.
    + apply (StronglySorted_map _ _
               (fun a b => lessName b a = false) _
               (fun p => nameOf (snd p) = Ok (fst p))).
      * intros a b Ha Hb. now apply nameLeb_of_pairs.
      * now apply (Permutation_Forall Hperm).
      * apply Hsorted. exact lessName_order.
Qed.

(** C5, as amended.  Under the contract of [sort.Slice], [sortByName]
    returns on every sequence of types whose names are strings, and what it
    returns is a rearrangement of the sequence in ascending order of the
    names; so are the types enum.go declares and the types input.go
    declares, which are taken from it in order.  When no two types of the
    sequence have the same name the three orders are strict. *)
Theorem sortByName_ascending (L : GoLib) (types : list json) :
  SortContract L ->
  (Forall (fun t => exists n, nameOf t = Ok n) types ->
   exists sorted, sortByName L types = Ok sorted)
  /\ (forall sorted,
         sortByName L types = Ok sorted ->
         Permutation types sorted
         /\ StronglySorted (fun a b => nameLeb a b = true) sorted
         /\ StronglySorted (fun a b => nameLeb a b = true)
                           (filter declaresEnum sorted)
         /\ StronglySorted (fun a b => nameLeb a b = true)
                           (filter declaresInput sorted)
         /\ (NoDup (map nameOf types) ->
             StronglySorted (fun a b => nameLtb a b = true) sorted
             /\ StronglySorted (fun a b => nameLtb a b = true)
                               (filter declaresEnum sorted)
             /\ StronglySorted (fun a b => nameLtb a b = true)
                               (filter declaresInput sorted))).
Proof.
  intros HL. split.
  - apply sortByName_total.
  - intros sorted H.
    destruct (sortByName_sorted L types sorted HL H) as [Hperm Hs].
    split; [exact Hperm|]. split; [exact Hs|].
    split; [now apply StronglySorted_filter|].
    split; [now apply StronglySorted_filter|].
    intros Hnd.
    assert (Hstrict : StronglySorted (fun a b => nameLtb a b = true) sorted).
    { apply (StronglySorted_strict _ _ (fun a b => nameLeb a b = true)
               _ nameOf).
      - exact nameLtb_of_nameLeb.
      - apply (Permutation_NoDup (Permutation_map nameOf Hperm) Hnd).
      - exact Hs. }
    split; [exact Hstrict|].
    split; now apply StronglySorted_filter.
Qed.

Lemma sortByName_ascending_witness :
  (Forall (fun t => exists n, nameOf t = Ok n) [issueState; addCommentInput] ->
   exists sorted, sortByName stableLib [issueState; addCommentInput] = Ok sorted)
  /\ (forall sorted,
         sortByName stableLib [issueState; addCommentInput] = Ok sorted ->
         Permutation [issueState; addCommentInput] sorted
         /\ StronglySorted (fun a b => nameLeb a b = true) sorted
         /\ StronglySorted (fun a b => nameLeb a b = true)
                           (filter declaresEnum sorted)
         /\ StronglySorted (fun a b => nameLeb a b = true)
                           (filter declaresInput sorted)
         /\ (NoDup (map nameOf [issueState; addCommentInput]) ->
             StronglySorted (fun a b => nameLtb a b = true) sorted
             /\ StronglySorted (fun a b => nameLtb a b = true)
                               (filter declaresEnum sorted)
             /\ StronglySorted (fun a b => nameLtb a b = true)
                               (filter declaresInput sorted))).
Proof.
  apply (sortByName_ascending stableLib [issueState; addCommentInput]).
  exact stableLib_contract.
Defined.

(** C5, as stated, fails twice.  Two enums of one name are both declared,
    one after the other, so the order of the declarations is not strict.
    And a sort that keeps the contract of [sort.Slice] may exchange two
    types of one name: the gap pass and insertion, on seven types, returns
    the two named ["B"] in the other order. *)
Lemma sortByName_not_strict_nor_stable :
  (r <- enum_go stableLib twinSchema ;; Ok (fst r))
  = Ok (enumHeader
          ++ nl ++ "// State represents the first." ++ nl
          ++ "type State string" ++ nl ++ nl
          ++ "// The first." ++ nl ++ "const (" ++ nl ++ ")" ++ nl
          ++ nl ++ "// State represents the second." ++ nl
          ++ "type State string" ++ nl ++ nl
          ++ "// The second." ++ nl ++ "const (" ++ nl ++ ")" ++ nl)
  /\ String.ltb "State" "State" = false
  /\ SortContract shellLib
  /\ sortByName shellLib sevenTypes
     = Ok [plain "A" "a"; plain "B" "second"; plain "B" "first";
           plain "C" "c1"; plain "D" "d"; plain "E" "e"; plain "F" "f"]
  /\ sevenTypes
     = [plain "B" "first"; plain "B" "second"; plain "C" "c1"; plain "D" "d";
        plain "E" "e"; plain "F" "f"; plain "A" "a"].
Proof.
  split; [vm_compute; reflexivity|]. split; [reflexivity|].
  split; [exact shellLib_contract|]. split; vm_compute; reflexivity.
Qed.

(** *** The loop of run *)

Section RunFacts.
Variable L : GoLib.
Variable E : Env.

Lemma renderSteps_names (todo : list (string * template)) (schema : json)
      (steps : list (string * string)) :
  renderSteps todo schema = Ok steps -> map fst steps = map fst todo.
Proof.
  revert schema steps. induction todo as [|[f t] rest IH]; intros schema steps H.
  - now injection H as <-.
  - cbn [renderSteps] in H. bind_inv H as r Hr. bind_inv H as more Hmore.
    injection H as <-. simpl. f_equal. now apply (IH (snd r)).
Qed.

(** When every template renders and every write succeeds the loop runs to
    its end and leaves one file per step. *)
Lemma runLoop_completes (todo : list (string * template)) (schema : json)
      (w : world) (steps : list (string * string)) :
  (forall f out, WriteFile E f out = WriteOk) ->
  renderSteps todo schema = Ok steps ->
  exists w',
    runLoop L E todo schema w = (w', Returned None)
    /\ disk w' = (rev (writes L steps) ++ disk w)%list
    /\ stderr w' = (stderr w ++ formatLog L steps)%list.
Proof.
  intros Hwrite. revert schema w steps.
  induction todo as [|[f t] rest IH]; intros schema w steps H.
  - injection H as <-. exists w. simpl. now rewrite app_nil_r.
  - cbn [renderSteps] in H. bind_inv H as r Hr. bind_inv H as more Hmore.
    injection H as <-. destruct r as [buf schema'].
    cbn [runLoop]. rewrite Hr. cbn [fst snd] in *.
    unfold writes, formatLog, payload. cbn [map flat_map rev fst snd].
    destruct (format_Source L buf) as [formatted|msg]; rewrite Hwrite.
    + edestruct (IH schema') as (w' & Hrun & Hdisk & Hlog); [exact Hmore|].
      exists w'. split; [exact Hrun|]. cbn [disk stderr] in *.
      rewrite Hdisk, Hlog. split; [|reflexivity].
      unfold writes, payload. now rewrite <- app_assoc.
    + edestruct (IH schema') as (w' & Hrun & Hdisk & Hlog); [exact Hmore|].
      exists w'. split; [exact Hrun|]. cbn [disk stderr] in *.
      rewrite Hdisk, Hlog. split.
      * unfold writes, payload. now rewrite <- app_assoc.
      * now rewrite <- app_assoc.
Qed.


End RunFacts.

(** *** A failing formatter *)

(** C7.  In a run that has its credential and its schema, whose two
    templates render and whose writes succeed, a buffer the formatter
    rejects does not stop the run: [run] returns nil, so that [main], which
    calls it once [flag.Parse] has returned, exits with status 0; both
    files are written, in the order of the range, and the file of each step
    holds the formatted buffer when the formatter accepted it and, when it
    rejected it with [msg], the line ["// gofmt error: " ++ msg], an empty
    line and the buffer as rendered, [msg] being logged as well. *)
Theorem run_survives_format_error (L : GoLib) (E : Env) (w : world)
        (token : string) (schema : json) (steps : list (string * string)) :
  GITHUB_TOKEN E = Some token ->
  loadSchema L E token = inl schema ->
  (forall f out, WriteFile E f out = WriteOk) ->
  renderSteps (rangeTemplates L E) schema = Ok steps ->
  exists w',
    run L E w = (w', Returned None)
    /\ (flag_Parse (os_Args E) = Parsed -> main L E w = (w', 0))
    /\ map fst steps = map fst (rangeTemplates L E)
    /\ (forall filename buf,
           In (filename, buf) steps ->
           match format_Source L buf with
           | inl formatted => readFile filename (disk w') = Some formatted
           | inr msg =>
               readFile filename (disk w')
               = Some ("// gofmt error: " ++ msg ++ nl ++ nl ++ buf)
               /\ In (Println msg) (stderr w')
           end).
Proof.
  intros Htoken Hload Hwrite Hsteps.
  destruct (runLoop_completes L E _ _ w _ Hwrite Hsteps)
    as (w' & Hrun & Hdisk & Hlog).
  pose proof (renderSteps_names _ _ _ Hsteps) as Hnames.
  assert (Hrun' : run L E w = (w', Returned None))
    by (unfold run; now rewrite Htoken, Hload, Hrun).
  exists w'. split; [exact Hrun'|]. split; [|split; [exact Hnames|]].
  - intros Hflags. unfold main. now rewrite Hflags, Hrun'.
  - assert (Hshape : exists f1 b1 f2 b2,
               steps = [(f1, b1); (f2, b2)]
               /\ String.eqb f1 f2 = false /\ String.eqb f2 f1 = false).
    { unfold rangeTemplates in Hnames.
      destruct steps as [|[f1 b1] [|[f2 b2] [|s3 more]]];
        destruct (enum_go_first E); try discriminate Hnames;
        injection Hnames as -> ->;
        [exists "enum.go", b1, "input.go", b2
        |exists "input.go", b1, "enum.go", b2]; now repeat split. }
    destruct Hshape as (f1 & b1 & f2 & b2 & -> & H12 & H21).
    intros filename buf Hin. rewrite Hdisk, Hlog.
    unfold writes, formatLog, payload. cbn [map rev app fst snd flat_map readFile].
    destruct Hin as [[= <- <-]|[[= <- <-]|[]]].
    + rewrite H12, String.eqb_refl.
      destruct (format_Source L b1) as [formatted|msg]; [reflexivity|].
      split; [reflexivity|]. apply in_or_app. right. now left.
    + rewrite String.eqb_refl.
      destruct (format_Source L b2) as [formatted|msg]; [reflexivity|].
      split; [reflexivity|]. apply in_or_app. right.
      apply in_or_app. right. now left.
Qed.

Lemma run_survives_format_error_witness :
  exists w',
    main enumRejected (writable true) emptyWorld = (w', 0)
    /\ map fst smallSteps = map fst (rangeTemplates enumRejected (writable true))
    /\ (forall filename buf,
           In (filename, buf) smallSteps ->
           match format_Source enumRejected buf with
           | inl formatted => readFile filename (disk w') = Some formatted
           | inr msg =>
               readFile filename (disk w')
               = Some ("// gofmt error: " ++ msg ++ nl ++ nl ++ buf)
               /\ In (Println msg) (stderr w')
           end).
Proof.
  destruct (run_survives_format_error enumRejected (writable true) emptyWorld
              "token" smallSchema smallSteps)
    as (w' & _ & Hmain & Hrest).
  - reflexivity.
  - reflexivity.
  - intros f out. reflexivity.
  - vm_compute. reflexivity.
  - exists w'. split; [exact (Hmain eq_refl) | exact Hrest].
Defined.

(** *** Errors end the run *)




(** *** One sorted arrangement *)

Lemma sorted_perm_unique (A : Type) (R : A -> A -> Prop) (l l' : list A) :
  (forall a b, In a l -> In b l -> R a b -> R b a -> a = b) ->
  StronglySorted R l -> StronglySorted R l' -> Permutation l l' -> l = l'.
Proof.
  revert l'. induction l as [|a l IH]; intros l' Hanti Hs Hs' Hp.
  - symmetry. now apply Permutation_nil.
  - destruct l' as [|b l'].
    + symmetry in Hp. now apply Permutation_nil in Hp.
    + apply StronglySorted_inv in Hs as [Hs Ha].
      apply StronglySorted_inv in Hs' as [Hs' Hb].
      assert (Hab : a = b).
      { assert (Hin : In a (b :: l')) by (apply (Permutation_in _ Hp); now left).
        assert (Hin' : In b (a :: l))
          by (apply (Permutation_in _ (Permutation_sym Hp)); now left).
        destruct Hin as [Heq|Hin]; [now symmetry|].
        destruct Hin' as [Heq|Hin']; [exact Heq|].
        apply Hanti; [now left | now right | |].
        - now apply (proj1 (Forall_forall _ _) Ha).
        - now apply (proj1 (Forall_forall _ _) Hb). }
      subst b. f_equal. apply Permutation_cons_inv in Hp.
      apply IH; try assumption.
      intros x y Hx Hy. apply Hanti; now right.
Qed.

Lemma NoDup_map_inj (A B : Type) (f : A -> B) (l : list A) (a b : A) :
  NoDup (map f l) -> In a l -> In b l -> f a = f b -> a = b.
Proof.
  induction l as [|x l IH]; intros Hnd Ha Hb Hf; [now elim Ha|].
  simpl in Hnd. apply NoDup_cons_iff in Hnd as [Hx Hnd].
  destruct Ha as [->|Ha], Hb as [->|Hb].
  - reflexivity.
  - elim Hx. rewrite Hf. now apply in_map.
  - elim Hx. rewrite <- Hf. now apply in_map.
  - now apply IH.
Qed.

Lemma insertString_perm (x : string) (l : list string) :
  Permutation (x :: l) (insertString x l).
Proof.
  induction l as [|y l IH]; simpl; [reflexivity|].
  destruct (String.leb x y); [reflexivity|].
  rewrite perm_swap. now constructor.
Qed.

Lemma sort_Strings_perm (l : list string) : Permutation l (sort_Strings l).
Proof.
  induction l as [|x l IH]; simpl; [reflexivity|].
  rewrite <- insertString_perm. now constructor.
Qed.

Lemma insertString_sorted (x : string) (l : list string) :
  StronglySorted (fun a b => String.leb a b = true) l ->
  StronglySorted (fun a b => String.leb a b = true) (insertString x l).
Proof.
  induction 1 as [|y l Hs IH Hy]; simpl.
  - constructor; constructor.
  - destruct (String.leb x y) eqn:Hxy.
    + constructor; [now constructor|].
      constructor; [exact Hxy|].
      apply Forall_forall. intros z Hz. apply (leb_trans x y z Hxy).
      now apply (proj1 (Forall_forall _ _) Hy).
    + constructor; [exact IH|].
      apply (Permutation_Forall (insertString_perm x l)).
      constructor; [|exact Hy].
      destruct (String.leb_total x y) as [H|H]; congruence.
Qed.

Lemma sort_Strings_sorted (l : list string) :
  StronglySorted (fun a b => String.leb a b = true) (sort_Strings l).
Proof.
  induction l as [|x l IH]; simpl; [constructor|].
  now apply insertString_sorted.
Qed.

(** [sort.Strings] does not see the order of its input. *)
Lemma sort_Strings_unique (l l' : list string) :
  Permutation l l' -> sort_Strings l = sort_Strings l'.
Proof.
  intros Hp.
  apply (sorted_perm_unique _ (fun a b => String.leb a b = true)).
  - intros a b _ _. apply String.leb_antisym.
  - apply sort_Strings_sorted.
  - apply sort_Strings_sorted.
  - rewrite <- (sort_Strings_perm l), <- (sort_Strings_perm l'). exact Hp.
Qed.

(** *** inputObjects does not see the order of the types *)

Lemma inputObjectNames_cons (t : json) (rest : list json) :
  inputObjectNames (t :: rest)
  = match inputObjectName t with
    | None => Panic TypeAssertion
    | Some ns => names <- inputObjectNames rest ;; Ok (ns ++ names)%list
    end.
Proof.
  cbn [inputObjectNames]. unfold inputObjectName.
  destruct t as [| | | | |m]; try reflexivity.
  destruct (mapIndex "kind" m) as [| | |k| |]; try reflexivity.
  destruct (negb (String.eqb k "INPUT_OBJECT")).
  - now destruct (inputObjectNames rest).
  - now destruct (mapIndex "name" m).
Qed.

Lemma inputObjectNames_closed (l : list json) :
  inputObjectNames l
  = if forallb (fun t => match inputObjectName t with
                         | Some _ => true
                         | None => false
                         end) l
    then Ok (flat_map (fun t => match inputObjectName t with
                                | Some ns => ns
                                | None => []
                                end) l)
    else Panic TypeAssertion.
Proof.
  induction l as [|t l IH]; [reflexivity|].
  rewrite inputObjectNames_cons, IH. cbn [forallb flat_map].
  destruct (inputObjectName t) as [ns|]; [|reflexivity].
  now destruct (forallb _ l).
Qed.

Lemma forallb_perm (A : Type) (p : A -> bool) (l l' : list A) :
  Permutation l l' -> forallb p l = forallb p l'.
Proof.
  induction 1 as [|x l l' _ IH|x y l|l l' l'' _ IH1 _ IH2]; simpl.
  - reflexivity.
  - now rewrite IH.
  - now rewrite !andb_assoc, (andb_comm (p y)).
  - congruence.
Qed.

Lemma inputObjects_perm (l l' : list json) :
  Permutation l l' -> inputObjects l = inputObjects l'.
Proof.
  intros Hp. unfold inputObjects. rewrite !inputObjectNames_closed.
  rewrite (forallb_perm _ _ l l' Hp).
  destruct (forallb _ l'); [|reflexivity].
  cbn [bind]. f_equal. apply sort_Strings_unique.
  now apply Permutation_flat_map.
Qed.

(** *** The document after a template has run *)

Lemma mapIndex_assign (k : string) (v : json) (m : object) :
  mapIndex k m <> JNull -> mapIndex k (assign k v m) = v.
Proof.
  induction m as [|[k' v'] m IH]; simpl; intros H; [now elim H|].
  destruct (String.eqb k k') eqn:Hk; simpl; rewrite Hk; [reflexivity|].
  now apply IH.
Qed.

Lemma entry_assign (k : string) (v : json) (m : object) :
  entry k m <> Invalid -> entry k (assign k v m) = Valid v.
Proof.
  induction m as [|[k' v'] m IH]; simpl; intros H; [now elim H|].
  destruct (String.eqb k k') eqn:Hk; simpl; rewrite Hk; [reflexivity|].
  now apply IH.
Qed.

Lemma entry_mapIndex (k : string) (m : object) (v : json) :
  mapIndex k m = v -> v <> JNull -> entry k m = Valid v.
Proof.
  intros <- Hv. rewrite <- dig_entry in Hv |- *.
  destruct (entry k m); [now elim Hv | reflexivity].
Qed.

(** The chain [.data.__schema.types] fails, or gives the invalid value on a
    document that the sort leaves alone, or gives the entry of [types]. *)
Lemma schemaTypes_cases (doc : json) :
  schemaTypes doc = ExecError
  \/ (schemaTypes doc = Ok Invalid /\ forall s, withTypes doc s = doc)
  \/ (exists top data schema v,
        doc = JObj top
        /\ mapIndex "data" top = JObj data
        /\ mapIndex "__schema" data = JObj schema
        /\ entry "types" schema = Valid v
        /\ schemaTypes doc = Ok (Valid v)).
Proof.
  unfold schemaTypes.
  destruct doc as [| | | | |top]; try (now left).
  - right; left. now split.
  - cbn [dataOf chainField bind withTypes].
    rewrite <- (dig_entry "data" top).
    destruct (entry "data" top) as [|d] eqn:Hd.
    { right; left. now split. }
    destruct d as [| | | | |data]; try (now left).
    cbn [chainField bind dig]. rewrite <- (dig_entry "__schema" data).
    destruct (entry "__schema" data) as [|sc] eqn:Hsc.
    { right; left. now split. }
    destruct sc as [| | | | |schema]; try (now left).
    cbn [chainField bind dig]. rewrite <- (dig_entry "types" schema).
    destruct (entry "types" schema) as [|v] eqn:Hv.
    { right; left. now split. }
    right; right. exists top, data, schema, v.
    rewrite <- (dig_entry "data" top), <- (dig_entry "__schema" data).
    now rewrite Hd, Hsc.
Qed.

Lemma types_withTypes (L : GoLib) (doc : json) (types sorted : list json) :
  typesOf L doc = Ok types ->
  (types = [] -> sorted = []) ->
  typesOf L (withTypes doc sorted) = Ok sorted
  /\ typesArg (withTypes doc sorted)
     = match typesArg doc with
       | Ok _ => Ok sorted
       | r => r
       end.
Proof.
  unfold typesOf, typesArg. intros H Hnil.
  destruct (schemaTypes_cases doc)
    as [Herr|[[Hinv Hsame]|(top & data & schema & v & -> & Hd & Hs & Hv & Hok)]].
  - rewrite Herr in H. discriminate H.
  - rewrite Hsame, Hinv in *. cbn [bind dig pipedSlice] in *.
    destruct (nil_pipes_as_zero L); [|discriminate H].
    injection H as <-. now rewrite (Hnil eq_refl).
  - rewrite Hok in *. cbn [bind dig] in *.
    pose proof (f_equal dig Hv) as Hv'.
    rewrite dig_entry in Hv'. cbn [dig] in Hv'.
    destruct v as [| | | |l|]; try discriminate H.
    + cbn [pipedSlice sliceArg] in *.
      destruct (nil_pipes_as_zero L) eqn:Hflag; [|discriminate H].
      injection H as <-. rewrite (Hnil eq_refl).
      assert (Hsame : withTypes (JObj top) [] = JObj top)
        by (cbn [withTypes]; now rewrite Hd, Hs, Hv').
      rewrite Hsame, Hok. cbn [bind dig pipedSlice sliceArg].
      now rewrite Hflag.
    + cbn [pipedSlice sliceArg] in *. clear H.
      assert (Hnew : schemaTypes (withTypes (JObj top) sorted)
                     = Ok (Valid (JArr sorted))).
      { cbn [withTypes]. rewrite Hd, Hs, Hv'. unfold schemaTypes.
        cbn [dataOf chainField bind].
        rewrite entry_assign
          by (rewrite (entry_mapIndex _ _ _ Hd); discriminate).
        cbn [chainField bind].
        rewrite entry_assign
          by (rewrite (entry_mapIndex _ _ _ Hs); discriminate).
        cbn [chainField bind].
        rewrite entry_assign by (rewrite Hv; discriminate).
        reflexivity. }
      rewrite Hnew. now split.
Qed.

(** The slice a function receives as its argument is the one piped into
    the next. *)
Lemma typesArg_typesOf (L : GoLib) (doc : json) (all types : list json) :
  typesArg doc = Ok all -> typesOf L doc = Ok types -> all = types.
Proof.
  unfold typesArg, typesOf.
  destruct (schemaTypes doc) as [[|v]| |p]; try discriminate; cbn [bind dig].
  - intros [= <-]. cbn [pipedSlice].
    destruct (nil_pipes_as_zero L); [|discriminate]. now intros [= <-].
  - destruct v; try discriminate. cbn [sliceArg pipedSlice]. congruence.
Qed.

(** Sorting again a slice [sortByName] has sorted, when no two names are
    equal, changes nothing. *)
Lemma sortByName_idempotent (L : GoLib) (types sorted : list json) :
  SortContract L ->
  NoDup (map nameOf types) ->
  sortByName L types = Ok sorted ->
  sortByName L sorted = Ok sorted.
Proof.
  intros HL Hnd H.
  destruct (sortByName_sorted L types sorted HL H) as [Hperm Hs].
  unfold sortByName in H.
  destruct (List.length types <? 2)%nat eqn:Hlen.
  - injection H as <-. unfold sortByName. now rewrite Hlen.
  - bind_inv H as names Hnames.
    assert (Hnamed : Forall (fun t => exists n, nameOf t = Ok n) sorted).
    { apply (Permutation_Forall Hperm).
      clear - Hnames. revert names Hnames.
      induction types as [|t types IH]; intros names Hnames; [constructor|].
      cbn [mapM] in Hnames. bind_inv Hnames as n Hn.
      bind_inv Hnames as ns Hns. constructor; [now exists n | now apply (IH ns)]. }
    destruct (sortByName_total L sorted Hnamed) as [again Hagain].
    destruct (sortByName_sorted L sorted again HL Hagain) as [Hperm' Hs'].
    rewrite Hagain. f_equal. symmetry.
    apply (sorted_perm_unique _ (fun a b => nameLeb a b = true));
      try assumption.
    intros a b Ha Hb Hab Hba.
    apply (NoDup_map_inj _ _ nameOf sorted); try assumption.
    + apply (Permutation_NoDup (Permutation_map nameOf Hperm) Hnd).
    + unfold nameLeb in Hab, Hba.
      destruct (nameOf a) as [x| |]; try discriminate.
      destruct (nameOf b) as [y| |]; try discriminate.
      f_equal. now apply String.leb_antisym.
Qed.

Lemma sortByName_nil (L : GoLib) (types sorted : list json) :
  sortByName L types = Ok sorted -> types = [] -> sorted = [].
Proof. intros H ->. now injection H as <-. Qed.

Section AfterSort.
Variable L : GoLib.
Hypothesis HL : SortContract L.
Variable doc : json.
Variable types : list json.
Hypothesis Htypes : typesOf L doc = Ok types.
Hypothesis Hnd : NoDup (map nameOf types).

(** Each template leaves the document with its types sorted. *)
Lemma enum_go_leaves (text : string) (doc' : json) :
  enum_go L doc = Ok (text, doc') ->
  exists sorted, sortByName L types = Ok sorted /\ doc' = withTypes doc sorted.
Proof.
  unfold enum_go. rewrite Htypes. cbn [bind]. intros H.
  bind_inv H as sorted Hsorted. bind_inv H as body Hbody.
  injection H as _ <-. apply call_Ok in Hsorted. now exists sorted.
Qed.

Lemma input_go_leaves (text : string) (doc' : json) :
  input_go L doc = Ok (text, doc') ->
  exists sorted, sortByName L types = Ok sorted /\ doc' = withTypes doc sorted.
Proof.
  unfold input_go. rewrite Htypes. intros H.
  bind_inv H as all Hall. bind_inv H as names Hnames. cbn [bind] in H.
  bind_inv H as sorted Hsorted. bind_inv H as body Hbody.
  injection H as _ <-. apply call_Ok in Hsorted. now exists sorted.
Qed.

(** Each template renders the same buffer on the document and on the
    document the other has left. *)
Lemma enum_go_after_sort (sorted : list json) :
  sortByName L types = Ok sorted ->
  textOf (enum_go L (withTypes doc sorted)) = textOf (enum_go L doc).
Proof.
  intros Hsorted. unfold enum_go. rewrite Htypes.
  rewrite (proj1 (types_withTypes L doc types sorted Htypes
                    (sortByName_nil L _ _ Hsorted))).
  cbn [bind].
  rewrite (sortByName_idempotent L types sorted HL Hnd Hsorted), Hsorted.
  cbn [call bind]. now destruct (rangeExec (enumEntry L) sorted).
Qed.

Lemma input_go_after_sort (sorted : list json) :
  sortByName L types = Ok sorted ->
  textOf (input_go L (withTypes doc sorted)) = textOf (input_go L doc).
Proof.
  intros Hsorted. unfold input_go. rewrite Htypes.
  destruct (types_withTypes L doc types sorted Htypes
              (sortByName_nil L _ _ Hsorted)) as [-> ->].
  destruct (typesArg doc) as [all| |p] eqn:Hall; try reflexivity.
  cbn [bind].
  rewrite (typesArg_typesOf L doc all types Hall Htypes).
  rewrite (inputObjects_perm sorted types)
    by (symmetry; apply (sortByName_sorted L types sorted HL Hsorted)).
  destruct (call L (inputObjects types)) as [names| |p]; try reflexivity.
  cbn [bind].
  rewrite (sortByName_idempotent L types sorted HL Hnd Hsorted), Hsorted.
  cbn [call bind]. now destruct (rangeExec (inputEntry L) sorted).
Qed.

End AfterSort.

Section Swap.
Variable doc : json.
Variable types : list json.
Variable sortTypes : result (list json).
Variables A B : template.
Variables fa fb : string.
Hypothesis A_leaves : forall text doc',
    A doc = Ok (text, doc') ->
    exists sorted, sortTypes = Ok sorted /\ doc' = withTypes doc sorted.
Hypothesis B_leaves : forall text doc',
    B doc = Ok (text, doc') ->
    exists sorted, sortTypes = Ok sorted /\ doc' = withTypes doc sorted.
Hypothesis A_after : forall sorted,
    sortTypes = Ok sorted -> textOf (A (withTypes doc sorted)) = textOf (A doc).
Hypothesis B_after : forall sorted,
    sortTypes = Ok sorted -> textOf (B (withTypes doc sorted)) = textOf (B doc).

Lemma textOf_Ok (r : result (string * json)) (text : string) :
  textOf r = Ok text -> exists doc', r = Ok (text, doc').
Proof.
  destruct r as [[t d]| |p]; try discriminate.
  intros [= <-]. now exists d.
Qed.

(** Two templates that leave the document sorted and render the same on a
    sorted document render the same in either order. *)
Lemma renderSteps_swap (steps : list (string * string)) :
  renderSteps [(fa, A); (fb, B)] doc = Ok steps ->
  renderSteps [(fb, B); (fa, A)] doc = Ok (rev steps).
Proof.
  intros H. cbn [renderSteps] in H.
  bind_inv H as ra Hra. bind_inv H as more Hmore. injection H as <-.
  bind_inv Hmore as rb Hrb. injection Hmore as <-.
  destruct ra as [a d1], rb as [b d2]. cbn [fst snd] in *.
  destruct (A_leaves _ _ Hra) as (sorted & Hsorted & ->).
  assert (Hb : textOf (B doc) = Ok b)
    by (rewrite <- (B_after sorted Hsorted); unfold textOf; now rewrite Hrb).
  apply textOf_Ok in Hb as [d1' Hb].
  destruct (B_leaves _ _ Hb) as (sorted' & Hsorted' & ->).
  assert (Ha : textOf (A (withTypes doc sorted')) = Ok a)
    by (rewrite (A_after sorted' Hsorted'); unfold textOf; now rewrite Hra).
  apply textOf_Ok in Ha as [d2' Ha].
  cbn [renderSteps]. rewrite Hb. cbn [bind snd fst]. rewrite Ha. reflexivity.
Qed.

End Swap.

(** *** The order of the two templates *)

(** C9, as amended.  The steps of a run that renders both templates follow
    the order in which its range yields the two entries of [templates]:
    enum.go then input.go, or input.go then enum.go, each once.  That order
    belongs to the execution, not to the schema.  Under the contract of
    [sort.Slice], when no two types of the schema have the same name, a run
    that meets the other order renders for each file the same buffer, so its
    steps are the same steps in reverse. *)
Theorem templates_follow_range_order (L : GoLib) (E E' : Env) (schema : json)
        (steps : list (string * string)) :
  renderSteps (rangeTemplates L E) schema = Ok steps ->
  map fst steps = (if enum_go_first E then ["enum.go"; "input.go"]
                   else ["input.go"; "enum.go"])
  /\ (SortContract L ->
      forall types,
        typesOf L schema = Ok types ->
        NoDup (map nameOf types) ->
        renderSteps (rangeTemplates L E') schema
        = Ok (if Bool.eqb (enum_go_first E) (enum_go_first E') then steps
              else rev steps)).
Proof.
  intros H. split.
  - rewrite (renderSteps_names _ _ _ H). unfold rangeTemplates.
    now destruct (enum_go_first E).
  - intros HL types Htypes Hnd. unfold rangeTemplates in *.
    destruct (enum_go_first E), (enum_go_first E'); cbn [Bool.eqb];
      try exact H.
    + apply (renderSteps_swap schema (sortByName L types)
               (enum_go L) (input_go L)); try exact H.
      * now apply enum_go_leaves.
      * now apply input_go_leaves.
      * now apply enum_go_after_sort.
      * now apply input_go_after_sort.
    + apply (renderSteps_swap schema (sortByName L types)
               (input_go L) (enum_go L)); try exact H.
      * now apply input_go_leaves.
      * now apply enum_go_leaves.
      * now apply input_go_after_sort.
      * now apply enum_go_after_sort.
Qed.

Lemma templates_follow_range_order_witness :
  map fst smallSteps
  = (if enum_go_first (writable true) then ["enum.go"; "input.go"]
     else ["input.go"; "enum.go"])
  /\ (SortContract stableLib ->
      forall types,
        typesOf stableLib smallSchema = Ok types ->
        NoDup (map nameOf types) ->
        renderSteps (rangeTemplates stableLib (writable false)) smallSchema
        = Ok (if Bool.eqb (enum_go_first (writable true))
                          (enum_go_first (writable false))
              then smallSteps else rev smallSteps)).
Proof.
  apply (templates_follow_range_order stableLib (writable true)
           (writable false) smallSchema smallSteps).
  vm_compute. reflexivity.
Defined.

(** C9, as stated, fails: two runs over one schema, one for each order of
    the range, go through different sequences of steps and announce their
    writes in different orders. *)
Lemma range_order_changes_the_steps :
  renderSteps (rangeTemplates stableLib (writable true)) smallSchema
  = Ok smallSteps
  /\ renderSteps (rangeTemplates stableLib (writable false)) smallSchema
     = Ok (rev smallSteps)
  /\ map fst smallSteps = ["enum.go"; "input.go"]
  /\ map fst (rev smallSteps) = ["input.go"; "enum.go"]
  /\ stdout (fst (main allFormatted (writable true) emptyWorld))
     = ["writing enum.go"; "writing input.go"]
  /\ stdout (fst (main allFormatted (writable false) emptyWorld))
     = ["writing input.go"; "writing enum.go"].
Proof. repeat split; vm_compute; reflexivity. Qed.

(** ** Further properties of the generator *)

(** *** Sentences *)

Lemma append_length_neq (s : string) : s ++ "." <> s.
Proof.
  intros H. apply (f_equal String.length) in H.
  rewrite length_append in H. simpl in H. lia.
Qed.

(** X1.  [fullSentence] returns a text that ends with a period; it leaves a
    text unchanged exactly when the text already ends with one, and
    otherwise adds one byte; applying it twice is applying it once. *)
Theorem fullSentence_idempotent (s : string) :
  HasSuffix (fullSentence s) "." = true
  /\ fullSentence (fullSentence s) = fullSentence s
  /\ (fullSentence s = s <-> HasSuffix s "." = true)
  /\ (fullSentence s = s \/ fullSentence s = s ++ ".").
Proof.
  unfold fullSentence. split; [apply withPeriod_ends|].
  split; [|split].
  - unfold withPeriod at 1. now rewrite withPeriod_ends.
  - unfold withPeriod. destruct (HasSuffix s ".") eqn:H; simpl.
    + now split.
    + split; [intros E; now apply append_length_neq in E | discriminate].
  - unfold withPeriod. destruct (HasSuffix s "."); simpl; auto.
Qed.

Lemma HasPrefix_head_neq (c d : ascii) (s p : string) :
  c <> d -> HasPrefix (String c s) (String d p) = false.
Proof.
  intros Hne. unfold HasPrefix. cbn [prefix].
  destruct (ascii_dec d c) as [->|_]; [now elim Hne | reflexivity].
Qed.

Lemma withPeriod_fixed (s : string) : withPeriod (withPeriod s) = withPeriod s.
Proof. unfold withPeriod at 1. now rewrite withPeriod_ends. Qed.

(** X2.  [endSentence] applied to a sentence it has returned does not return
    it again, unless the sentence starts with ["specifies "]: it puts one
    more ["represents "] in front.  The period is not doubled. *)
Theorem endSentence_twice (L : GoLib) (s r : string) :
  endSentence L s = Ok r ->
  endSentence L r
  = Ok (if HasPrefix r "specifies " then r else "represents " ++ r).
Proof.
  intros H. destruct s as [|c rest]; [discriminate H|].
  unfold endSentence in H. injection H as <-.
  set (low := ToLower1 L c ++ rest). clearbody low.
  assert (Hre : forall x : string, x <> EmptyString ->
            withPeriod ("represents " ++ withPeriod x)
            = "represents " ++ withPeriod x).
  { intros x Hx. unfold withPeriod at 1.
    rewrite (HasSuffix_append_l "represents " (withPeriod x) "."%char).
    - now rewrite withPeriod_ends.
    - unfold withPeriod. destruct x; [now elim Hx|].
      destruct (negb _); discriminate. }
  destruct (withVerb_cases low) as (verb & Hverb & Hv). rewrite Hverb.
  destruct Hv as [[-> _]|[[-> [Ha Hs]]|[-> _]]].
  - assert (Hr : exists x, withPeriod ("is an " ++ low) = String "i" x).
    { unfold withPeriod. destruct (negb _); cbn [append]; eauto. }
    destruct Hr as [x Hr].
    rewrite <- (Hre ("is an " ++ low)) by discriminate.
    rewrite Hr. unfold endSentence.
    replace (ToLower1 L "i") with (String "i" EmptyString) by reflexivity.
    cbn [append]. unfold withVerb.
    now rewrite !HasPrefix_head_neq by discriminate.
  - cbn [append]. apply HasPrefix_iff in Hs as [x Hx].
    assert (Hp : HasPrefix (withPeriod low) "specifies " = true).
    { apply HasPrefix_iff. unfold withPeriod. rewrite Hx.
      destruct (negb _).
      - exists (x ++ "."). now rewrite append_assoc.
      - now exists x. }
    rewrite Hp.
    assert (Hr : exists y, withPeriod low = String "s" y).
    { apply HasPrefix_iff in Hp as [z ->]. cbn [append]. eauto. }
    destruct Hr as [y Hr].
    pose proof (withPeriod_fixed low) as Hfix. rewrite Hr in *.
    unfold endSentence.
    replace (ToLower1 L "s") with (String "s" EmptyString) by reflexivity.
    cbn [append]. unfold withVerb.
    rewrite (HasPrefix_head_neq "s" "a") by discriminate.
    now rewrite Hp, Hfix.
  - assert (Hr : exists x, withPeriod ("represents " ++ low) = String "r" x).
    { unfold withPeriod. destruct (negb _); cbn [append]; eauto. }
    destruct Hr as [x Hr].
    rewrite <- (Hre ("represents " ++ low)) by discriminate.
    rewrite Hr. unfold endSentence.
    replace (ToLower1 L "r") with (String "r" EmptyString) by reflexivity.
    cbn [append]. unfold withVerb.
    now rewrite !HasPrefix_head_neq by discriminate.
Qed.

Lemma endSentence_twice_witness :
  endSentence stableLib "represents an open issue."
  = Ok (if HasPrefix "represents an open issue." "specifies "
        then "represents an open issue."
        else "represents " ++ "represents an open issue.").
Proof.
  apply (endSentence_twice stableLib "An open issue").
  reflexivity.
Defined.

(** *** The resolver *)

(** X3.  How the resolver ends: it returns a string, or it panics in a type
    assertion, or it panics in the marker check of a NON_NULL node, on a
    string that does not begin with the marker.  It never slices an empty
    string: [s[1:]] is reached only past the marker check. *)
Theorem typeString_outcomes (t : json) :
  (exists s, typeString t = Ok s)
  \/ typeString t = Panic TypeAssertion
  \/ (exists s, typeString t = Panic (NotNullable s)
                /\ HasPrefix s "*" = false).
Proof.
  induction t as [| | | | |m IH] using json_ind_nested;
    try (right; left; reflexivity).
  rewrite typeString_unfold.
  set (inner := mapIndex "ofType" m).
  assert (Hin : (exists s, typeString inner = Ok s)
                \/ typeString inner = Panic TypeAssertion
                \/ (exists s, typeString inner = Panic (NotNullable s)
                              /\ HasPrefix s "*" = false)).
  { apply (mapIndex_Forall
             (fun v => (exists s, typeString v = Ok s)
                       \/ typeString v = Panic TypeAssertion
                       \/ (exists s, typeString v = Panic (NotNullable s)
                                     /\ HasPrefix s "*" = false)));
      [right; left; reflexivity | exact IH]. }
  destruct (isStr (mapIndex "kind" m) "NON_NULL").
  - destruct Hin as [[s ->]|[->|(s & -> & Hs)]]; cbn [bind].
    + destruct (HasPrefix s "*") eqn:Hs; cbn [negb].
      * apply HasPrefix_star in Hs as [r ->]. left. now exists r.
      * right; right. now exists s.
    + right; left; reflexivity.
    + right; right. now exists s.
  - destruct (isStr (mapIndex "kind" m) "LIST").
    + destruct Hin as [[s ->]|[->|(s & -> & Hs)]]; cbn [bind].
      * left. now eexists.
      * right; left; reflexivity.
      * right; right. now exists s.
    + destruct (mapIndex "name" m); try (right; left; reflexivity).
      left. now eexists.
Qed.

Lemma plainNames_unfold (m : object) :
  plainNames (JObj m) =
  if isStr (mapIndex "kind" m) "NON_NULL" then plainNames (mapIndex "ofType" m)
  else if isStr (mapIndex "kind" m) "LIST" then
    plainNames (mapIndex "ofType" m)
  else
    match mapIndex "name" m with
    | JStr name => negb (HasPrefix name "*")
    | _ => true
    end.
Proof.
  cbn [plainNames].
  destruct (isStr (mapIndex "kind" m) "NON_NULL").
  - now apply mapIndex_with_spec.
  - destruct (isStr (mapIndex "kind" m) "LIST"); [|reflexivity].
    now apply mapIndex_with_spec.
Qed.

(** Where the resolver returns, under names without the marker, the node is
    a type reference, and what a NON_NULL node resolves to has no marker. *)
Lemma typeString_Ok_typeRef (t : json) (s : string) :
  plainNames t = true -> typeString t = Ok s ->
  typeRef t = true /\ (kindIs t "NON_NULL" = true -> HasPrefix s "*" = false).
Proof.
  revert s.
  induction t as [| | | | |m IH] using json_ind_nested; try discriminate.
  intros s. rewrite plainNames_unfold, typeString_unfold, typeRef_unfold.
  unfold kindIs at 2.
  set (inner := mapIndex "ofType" m).
  assert (Hin : forall s', plainNames inner = true ->
                           typeString inner = Ok s' ->
                           typeRef inner = true
                           /\ (kindIs inner "NON_NULL" = true ->
                               HasPrefix s' "*" = false)).
  { apply (mapIndex_Forall
             (fun v => forall s', plainNames v = true ->
                                  typeString v = Ok s' ->
                                  typeRef v = true
                                  /\ (kindIs v "NON_NULL" = true ->
                                      HasPrefix s' "*" = false)));
      [discriminate | exact IH]. }
  clearbody inner.
  destruct (isStr (mapIndex "kind" m) "NON_NULL").
  - intros Hp H.
    destruct (typeString inner) as [s'| |p] eqn:Hs'; try discriminate H.
    cbn [bind] in H.
    destruct (HasPrefix s' "*") eqn:Hstar; [|discriminate H].
    cbn [negb] in H.
    destruct (Hin s' Hp eq_refl) as [Hr Hnn].
    destruct (kindIs inner "NON_NULL") eqn:Hk;
      [specialize (Hnn eq_refl); congruence|].
    split; [now rewrite Hr|]. intros _.
    destruct inner as [| | | | |m']; try discriminate Hs'.
    rewrite typeString_unfold in Hs'. rewrite plainNames_unfold in Hp.
    unfold kindIs in Hk. rewrite Hk in Hs', Hp.
    destruct (isStr (mapIndex "kind" m') "LIST").
    + destruct (typeString (mapIndex "ofType" m')) as [s''| |p];
        try discriminate Hs'.
      injection Hs' as <-. injection H as <-.
      now apply HasPrefix_head_neq.
    + destruct (mapIndex "name" m') as [| | |name| |]; try discriminate Hs'.
      injection Hs' as <-. injection H as <-.
      now apply negb_true_iff in Hp.
  - destruct (isStr (mapIndex "kind" m) "LIST").
    + intros Hp H.
      destruct (typeString inner) as [s'| |p] eqn:Hs'; try discriminate H.
      destruct (Hin s' Hp eq_refl) as [Hr _]. split; [exact Hr|discriminate].
    + destruct (mapIndex "name" m); try discriminate.
      intros _ _. split; [reflexivity|discriminate].
Qed.

(** X4.  Where no type name begins with the marker (no name of a GraphQL
    schema does), the resolver returns a string exactly on the type
    references: the named types, the LISTs of a reference and the NON_NULLs
    of a reference that is not itself NON_NULL.  On every other node,
    a NON_NULL directly around a NON_NULL included, it panics. *)
Theorem typeString_returns_iff_typeRef (t : json) :
  plainNames t = true ->
  ((exists s, typeString t = Ok s) <-> typeRef t = true).
Proof.
  intros Hp. split.
  - intros [s Hs]. exact (proj1 (typeString_Ok_typeRef t s Hp Hs)).
  - intros Hr. destruct (typeString_typeRef t Hr) as (s & Hs & _).
    now exists s.
Qed.

Lemma typeString_returns_iff_typeRef_witness :
  (exists s, typeString (NON_NULL (LIST (NON_NULL (named "SCALAR" "Int"))))
             = Ok s)
  <-> typeRef (NON_NULL (LIST (NON_NULL (named "SCALAR" "Int")))) = true.
Proof.
  apply (typeString_returns_iff_typeRef
           (NON_NULL (LIST (NON_NULL (named "SCALAR" "Int"))))).
  reflexivity.
Defined.

(** *** The names inputObjects returns *)

Lemma inputObjectName_Some (t : json) (ns : list string) :
  inputObjectName t = Some ns ->
  (declaresInput t = true /\ exists n, nameOf t = Ok n /\ ns = [n])
  \/ (declaresInput t = false /\ ns = []).
Proof.
  unfold inputObjectName, declaresInput, kindIs, nameOf.
  destruct t as [| | | | |m]; try discriminate.
  destruct (mapIndex "kind" m) as [| | |k| |]; try discriminate.
  cbn [isStr]. destruct (String.eqb k "INPUT_OBJECT"); cbn [negb].
  - destruct (mapIndex "name" m) as [| | |n| |]; try discriminate.
    intros [= <-]. left. split; [reflexivity|]. now exists n.
  - intros [= <-]. now right.
Qed.

Lemma inputObjectName_None (t : json) :
  inputObjectName t = None <->
  ~ exists m k, t = JObj m /\ mapIndex "kind" m = JStr k
                /\ (k = "INPUT_OBJECT" ->
                    exists n, mapIndex "name" m = JStr n).
Proof.
  unfold inputObjectName. split.
  - intros H (m & k & -> & Hk & Hn). rewrite Hk in H.
    destruct (String.eqb k "INPUT_OBJECT") eqn:E; [|discriminate H].
    apply String.eqb_eq in E. destruct (Hn E) as [n Hname].
    rewrite Hname in H. discriminate H.
  - intros H. destruct t as [| | | | |m]; try reflexivity.
    destruct (mapIndex "kind" m) as [| | |k| |] eqn:Hk; try reflexivity.
    destruct (String.eqb k "INPUT_OBJECT") eqn:E; cbn [negb].
    + destruct (mapIndex "name" m) as [| | |n| |] eqn:Hn; try reflexivity.
      elim H. exists m, k. split; [reflexivity|]. split; [exact Hk|].
      intros _. now exists n.
    + elim H. exists m, k. split; [reflexivity|]. split; [exact Hk|].
      intros ->. discriminate E.
Qed.

(** The names of the INPUT_OBJECT types, in the order of the types. *)
Lemma declared_names (l : list json) :
  forallb (fun t => match inputObjectName t with
                    | Some _ => true
                    | None => false
                    end) l = true ->
  mapM nameOf (filter declaresInput l)
  = Ok (flat_map (fun t => match inputObjectName t with
                           | Some ns => ns
                           | None => []
                           end) l).
Proof.
  induction l as [|t l IH]; [reflexivity|].
  cbn [forallb filter flat_map]. intros H.
  apply andb_true_iff in H as [Ht Hl]. specialize (IH Hl).
  destruct (inputObjectName t) as [ns|] eqn:Hns; [|discriminate Ht].
  destruct (inputObjectName_Some t ns Hns)
    as [(-> & n & Hn & ->)|(-> & ->)].
  - cbn [mapM]. now rewrite Hn, IH.
  - exact IH.
Qed.

(** X5.  What [inputObjects] returns is the names of the types of kind
    INPUT_OBJECT, each as often as a type has it, in ascending order; it is
    the same for every order of the types. *)
Theorem inputObjects_sorted_names (types : list json) (names : list string) :
  inputObjects types = Ok names ->
  (exists declared,
      mapM nameOf (filter declaresInput types) = Ok declared
      /\ Permutation declared names)
  /\ StronglySorted (fun a b => String.leb a b = true) names
  /\ (forall types', Permutation types types' ->
                     inputObjects types' = Ok names).
Proof.
  intros H. split; [|split].
  - unfold inputObjects in H. rewrite inputObjectNames_closed in H.
    destruct (forallb _ types) eqn:Hall; [|discriminate H].
    injection H as <-. eexists. split; [now apply declared_names|].
    apply sort_Strings_perm.
  - unfold inputObjects in H. bind_inv H as ns Hns. injection H as <-.
    apply sort_Strings_sorted.
  - intros types' Hp. now rewrite <- (inputObjects_perm types types' Hp).
Qed.

Lemma inputObjects_sorted_names_witness :
  (exists declared,
      mapM nameOf (filter declaresInput
                     [issueState; reservedInput; addCommentInput])
      = Ok declared
      /\ Permutation declared ["AddCommentInput"; "__Hidden"])
  /\ StronglySorted (fun a b => String.leb a b = true)
                    ["AddCommentInput"; "__Hidden"]
  /\ (forall types',
         Permutation [issueState; reservedInput; addCommentInput] types' ->
         inputObjects types' = Ok ["AddCommentInput"; "__Hidden"]).
Proof.
  apply (inputObjects_sorted_names
           [issueState; reservedInput; addCommentInput]).
  reflexivity.
Defined.

(** X6.  [inputObjects] returns, or it panics in a type assertion.  It
    returns exactly when every element is an object whose kind is a string
    and, for the kind INPUT_OBJECT, whose name is a string: a type of
    another kind needs no name, but a type without a kind stops it. *)
Theorem inputObjects_returns_iff (types : list json) :
  ((exists names, inputObjects types = Ok names)
   \/ inputObjects types = Panic TypeAssertion)
  /\ ((exists names, inputObjects types = Ok names)
      <-> Forall (fun t => exists m k,
                     t = JObj m /\ mapIndex "kind" m = JStr k
                     /\ (k = "INPUT_OBJECT" ->
                         exists n, mapIndex "name" m = JStr n)) types).
Proof.
  unfold inputObjects. rewrite inputObjectNames_closed.
  destruct (forallb _ types) eqn:Hall; cbn [bind].
  - split; [left; now eexists|]. split; [intros _|intros _; now eexists].
    apply Forall_forall. intros t Ht.
    rewrite forallb_forall in Hall. specialize (Hall t Ht).
    destruct (inputObjectName t) eqn:Hn; [|discriminate Hall].
    destruct t as [| | | | |m]; try discriminate Hn.
    unfold inputObjectName in Hn.
    destruct (mapIndex "kind" m) as [| | |k| |] eqn:Hk; try discriminate Hn.
    exists m, k. split; [reflexivity|]. split; [exact Hk|]. intros ->.
    rewrite String.eqb_refl in Hn. cbn [negb] in Hn.
    destruct (mapIndex "name" m) as [| | |n| |]; try discriminate Hn.
    now exists n.
  - split; [now right|]. split; [intros [names H]; discriminate H|].
    intros HF. exfalso.
    assert (Hall' : forallb (fun t => match inputObjectName t with
                                      | Some _ => true
                                      | None => false
                                      end) types = true).
    { apply forallb_forall. intros t Ht.
      destruct (inputObjectName t) eqn:Hn; [reflexivity|].
      apply inputObjectName_None in Hn. elim Hn.
      exact (proj1 (Forall_forall _ _) HF t Ht). }
    congruence.
Qed.

(** *** The header of input.go *)

Lemma mapM_Ok_Forall {A B : Type} (f : A -> result B) (l : list A)
      (ys : list B) :
  mapM f l = Ok ys -> Forall2 (fun x y => f x = Ok y) l ys.
Proof.
  revert ys. induction l as [|x l IH]; intros ys H.
  - injection H as <-. constructor.
  - cbn [mapM] in H. bind_inv H as y Hy. bind_inv H as ys' Hys.
    injection H as <-. constructor; [exact Hy | now apply IH].
Qed.

Lemma names_sorted (l : list json) (ns : list string) :
  mapM nameOf l = Ok ns ->
  StronglySorted (fun a b => nameLeb a b = true) l ->
  StronglySorted (fun a b => String.leb a b = true) ns.
Proof.
  intros H. apply mapM_Ok_Forall in H.
  induction H as [|t n l ns Hn Hrest IH]; intros Hs; [constructor|].
  apply StronglySorted_inv in Hs as [Hs Ht].
  constructor; [now apply IH|].
  clear IH Hs. induction Hrest as [|t' n' l ns Hn' _ IH]; [constructor|].
  apply Forall_cons_iff in Ht as [Htt' Ht].
  constructor; [|now apply IH].
  unfold nameLeb in Htt'. now rewrite Hn, Hn' in Htt'.
Qed.

(** X7.  The names in the header of input.go are the names of the structs
    the file declares, in the order in which it declares them: the header
    sorts the names with [sort.Strings], the declarations follow
    [sortByName], and the two agree. *)
Theorem input_go_header_names_the_structs (L : GoLib) (doc : json)
        (text : string) (doc' : json) :
  SortContract L ->
  input_go L doc = Ok (text, doc') ->
  exists types sorted names decls,
    typesOf L doc = Ok types
    /\ sortByName L types = Ok sorted
    /\ mapM nameOf (filter declaresInput sorted) = Ok names
    /\ mapM (inputObject L) (filter declaresInput sorted) = Ok decls
    /\ text = inputHeader names
              ++ joinAll (map (fun d => nl ++ d ++ nl) decls).
Proof.
  intros HL H. unfold input_go in H. bind_inv H as all Hall.
  bind_inv H as names Hnames. bind_inv H as types Htypes.
  bind_inv H as sorted Hsorted.
  bind_inv H as body E3. injection H as <- <-.
  apply call_Ok in Hnames, Hsorted.
  rewrite (typesArg_typesOf L doc all types Hall Htypes) in Hnames.
  rewrite (rangeExec_ext _
             (fun t => b <- (kind <- field "kind" t ;;
                             eq_string L kind "INPUT_OBJECT") ;;
                       if b then (d <- inputObject L t ;; Ok (nl ++ d ++ nl))
                       else Ok EmptyString))
    in E3 by (intros x; unfold inputEntry; now rewrite bind_assoc).
  apply (rangeExec_select _ declaresInput) in E3 as (parts & Hparts & ->);
    [|exact (inputKind_spec L)].
  apply mapM_wrap in Hparts as (decls & Hdecls & ->).
  exists types, sorted, names, decls.
  repeat split; try assumption.
  destruct (sortByName_sorted L types sorted HL Hsorted) as [Hperm Hs].
  rewrite (inputObjects_perm types sorted Hperm) in Hnames.
  unfold inputObjects in Hnames. rewrite inputObjectNames_closed in Hnames.
  destruct (forallb _ sorted) eqn:Hok; [|discriminate Hnames].
  injection Hnames as <-. rewrite (declared_names sorted Hok). f_equal.
  apply (sorted_perm_unique _ (fun a b => String.leb a b = true)).
  - intros a b _ _. apply String.leb_antisym.
  - apply (names_sorted (filter declaresInput sorted)).
    + now apply declared_names.
    + now apply StronglySorted_filter.
  - apply sort_Strings_sorted.
  - apply sort_Strings_perm.
Qed.

Lemma input_go_header_names_the_structs_witness :
  exists types sorted names decls,
    typesOf stableLib smallSchema = Ok types
    /\ sortByName stableLib types = Ok sorted
    /\ mapM nameOf (filter declaresInput sorted) = Ok names
    /\ mapM (inputObject stableLib) (filter declaresInput sorted) = Ok decls
    /\ smallInputText = inputHeader names
                        ++ joinAll (map (fun d => nl ++ d ++ nl) decls).
Proof.
  apply (input_go_header_names_the_structs stableLib smallSchema
           smallInputText (withTypes smallSchema [addCommentInput; issueState])).
  - exact stableLib_contract.
  - vm_compute. reflexivity.
Defined.

(** *** sortByName, whatever the sort *)

Lemma mapM_nameOf_outcomes (l : list json) :
  (exists ns, mapM nameOf l = Ok ns) \/ mapM nameOf l = Panic TypeAssertion.
Proof.
  induction l as [|t l IH]; [left; now eexists|]. cbn [mapM].
  assert (Ht : (exists n, nameOf t = Ok n) \/ nameOf t = Panic TypeAssertion).
  { unfold nameOf. destruct t as [| | | | |m]; auto.
    destruct (mapIndex "name" m); eauto. }
  destruct Ht as [[n ->]| ->]; cbn [bind]; [|now right].
  destruct IH as [[ns ->]| ->]; cbn [bind]; [left; now eexists | now right].
Qed.

Lemma mapM_Ok_each {A B : Type} (f : A -> result B) (l : list A)
      (ys : list B) :
  mapM f l = Ok ys -> Forall (fun x => exists y, f x = Ok y) l.
Proof.
  intros H. apply mapM_Ok_Forall in H.
  induction H as [|x y l ys Hxy _ IH]; constructor; [now exists y | exact IH].
Qed.

(** X8.  When no two types have the same name, what [sortByName] returns
    is settled by the types alone: every [sort.Slice] that keeps its
    contract gives the same slice, and so does every order in which the
    schema lists the types.  A panic on a name that is not a string is the
    same panic as well. *)
Theorem sortByName_determined (L L' : GoLib) (types types' : list json) :
  SortContract L -> SortContract L' ->
  NoDup (map nameOf types) ->
  Permutation types types' ->
  sortByName L types = sortByName L' types'.
Proof.
  intros HL HL' Hnd Hp.
  destruct (List.length types <? 2)%nat eqn:Hlen.
  - assert (Heq : types' = types).
    { apply Nat.ltb_lt in Hlen.
      destruct types as [|a [|b l]]; simpl in Hlen; try lia.
      - now apply Permutation_nil in Hp.
      - now apply Permutation_length_1_inv in Hp. }
    subst types'. unfold sortByName. now rewrite Hlen.
  - assert (Hlen' : (List.length types' <? 2)%nat = false)
      by (rewrite <- (Permutation_length Hp); exact Hlen).
    destruct (mapM_nameOf_outcomes types) as [[ns Hns]|Hpanic].
    + pose proof (mapM_Ok_each _ _ _ Hns) as Hnamed.
      pose proof (Permutation_Forall Hp Hnamed) as Hnamed'.
      destruct (sortByName_total L types Hnamed) as [s Hs].
      destruct (sortByName_total L' types' Hnamed') as [s' Hs'].
      rewrite Hs, Hs'. f_equal.
      destruct (sortByName_sorted L types s HL Hs) as [P1 S1].
      destruct (sortByName_sorted L' types' s' HL' Hs') as [P2 S2].
      apply (sorted_perm_unique _ (fun a b => nameLeb a b = true));
        try assumption.
      * intros a b Ha Hb Hab Hba.
        apply (NoDup_map_inj _ _ nameOf s); try assumption.
        -- apply (Permutation_NoDup (Permutation_map nameOf P1) Hnd).
        -- unfold nameLeb in Hab, Hba.
           destruct (nameOf a) as [x| |]; try discriminate.
           destruct (nameOf b) as [y| |]; try discriminate.
           f_equal. now apply String.leb_antisym.
      * exact (Permutation_trans (Permutation_sym P1)
                                 (Permutation_trans Hp P2)).
    + unfold sortByName. rewrite Hlen, Hlen', Hpanic. cbn [bind].
      destruct (mapM_nameOf_outcomes types') as [[ns' Hns']| ->];
        [exfalso|reflexivity].
      pose proof (mapM_Ok_each _ _ _ Hns') as Hnamed'.
      pose proof (Permutation_Forall (Permutation_sym Hp) Hnamed') as Hnamed.
      destruct (mapM_total _ _ Hnamed) as [ns Hns]. congruence.
Qed.

Lemma sortByName_determined_witness :
  sortByName stableLib [issueState; addCommentInput; reservedInput]
  = sortByName shellLib [reservedInput; issueState; addCommentInput].
Proof.
  apply (sortByName_determined stableLib shellLib
           [issueState; addCommentInput; reservedInput]
           [reservedInput; issueState; addCommentInput]).
  - exact stableLib_contract.
  - exact shellLib_contract.
  - repeat constructor; simpl; intuition congruence.
  - apply Permutation_sym.
    apply (Permutation_cons_append [issueState; addCommentInput]
                                   reservedInput).
Defined.

(** *** The declarations *)

Lemma rangeExec_mapM {A : Type} (g : A -> result string) (l : list A)
      (text : string) :
  rangeExec g l = Ok text ->
  exists parts, mapM g l = Ok parts /\ text = joinAll parts.
Proof.
  revert text. induction l as [|x l IH]; intros text H.
  - injection H as <-. now exists [].
  - cbn [rangeExec] in H. bind_inv H as s Hs. bind_inv H as r Hr.
    injection H as <-. destruct (IH r Hr) as (parts & Hparts & ->).
    exists (s :: parts). cbn [mapM]. now rewrite Hs, Hparts.
Qed.

(** X9.  The declaration of an enum has one constant for each of its
    values, in the order of [enumValues]; each is named by the type's name
    and the value's identifier, holds the value's name quoted, and carries
    the value's description as a full sentence. *)
Theorem enum_one_constant_per_value (L : GoLib) (m : object)
        (vs : list json) (text : string) :
  mapIndex "enumValues" m = JArr vs ->
  enum L (JObj m) = Ok text ->
  exists d first consts,
    mapIndex "description" m = JStr d
    /\ endSentence L d = Ok first
    /\ Forall2 (fun v c =>
                  exists vm vn vd,
                    v = JObj vm
                    /\ mapIndex "name" vm = JStr vn
                    /\ mapIndex "description" vm = JStr vd
                    /\ c = nl ++ tab ++ print L (mapIndex "name" m)
                              ++ enumIdentifier L vn ++ " "
                              ++ print L (mapIndex "name" m)
                              ++ " = " ++ quote L vn
                              ++ " // " ++ fullSentence vd)
               vs consts
    /\ text = "// " ++ print L (mapIndex "name" m) ++ " " ++ first ++ nl
              ++ "type " ++ print L (mapIndex "name" m) ++ " string" ++ nl
              ++ nl
              ++ "// " ++ fullSentence d ++ nl
              ++ "const (" ++ joinAll consts ++ nl
              ++ ")".
Proof.
  intros Hvs H. unfold enum in H. cbn [field bind] in H.
  bind_inv H as d Hd. apply stringArg_Ok in Hd.
  bind_inv H as first Hfirst. apply call_Ok in Hfirst.
  rewrite Hvs in H. cbn [rangeOver bind] in H.
  bind_inv H as constants Hconstants. injection H as <-.
  apply rangeExec_mapM in Hconstants as (consts & Hconsts & ->).
  exists d, first, consts. repeat split; try assumption.
  apply mapM_Ok_Forall in Hconsts.
  revert Hconsts. apply Forall2_impl.
  intros v c Hc. unfold enumConstant in Hc. cbn [field bind] in Hc.
  destruct v as [| | | | |vm]; try discriminate Hc. cbn [field bind] in Hc.
  bind_inv Hc as vn Hvn. apply stringArg_Ok in Hvn.
  bind_inv Hc as vd Hvd. apply stringArg_Ok in Hvd.
  injection Hc as <-. now exists vm, vn, vd.
Qed.

Lemma enum_one_constant_per_value_witness :
  exists d first consts,
    mapIndex "description" issueStateFields = JStr d
    /\ endSentence stableLib d = Ok first
    /\ Forall2 (fun v c =>
                  exists vm vn vd,
                    v = JObj vm
                    /\ mapIndex "name" vm = JStr vn
                    /\ mapIndex "description" vm = JStr vd
                    /\ c = nl ++ tab
                              ++ print stableLib
                                   (mapIndex "name" issueStateFields)
                              ++ enumIdentifier stableLib vn ++ " "
                              ++ print stableLib
                                   (mapIndex "name" issueStateFields)
                              ++ " = " ++ quote stableLib vn
                              ++ " // " ++ fullSentence vd)
               [enumValue "OPEN" "An open issue";
                enumValue "CLOSED" "A closed issue."]
               consts
    /\ issueStateText
       = "// " ++ print stableLib (mapIndex "name" issueStateFields) ++ " "
              ++ first ++ nl
              ++ "type " ++ print stableLib (mapIndex "name" issueStateFields)
              ++ " string" ++ nl
              ++ nl
              ++ "// " ++ fullSentence d ++ nl
              ++ "const (" ++ joinAll consts ++ nl
              ++ ")".
Proof.
  apply (enum_one_constant_per_value stableLib issueStateFields).
  - reflexivity.
  - vm_compute. reflexivity.
Defined.

Lemma enum_Ok_description (L : GoLib) (t : json) (text : string) :
  enum L t = Ok text ->
  exists m d, t = JObj m /\ mapIndex "description" m = JStr d /\ d <> EmptyString.
Proof.
  intros H. unfold enum in H.
  destruct t as [| | | | |m]; try discriminate H. cbn [field bind] in H.
  bind_inv H as d Hd. apply stringArg_Ok in Hd.
  bind_inv H as first Hfirst. apply call_Ok in Hfirst.
  exists m, d. split; [reflexivity|]. split; [exact Hd|].
  intros ->. discriminate Hfirst.
Qed.

Lemma inputObject_Ok_description (L : GoLib) (t : json) (text : string) :
  inputObject L t = Ok text ->
  exists m d, t = JObj m /\ mapIndex "description" m = JStr d /\ d <> EmptyString.
Proof.
  intros H. unfold inputObject in H.
  destruct t as [| | | | |m]; try discriminate H. cbn [field bind] in H.
  bind_inv H as d Hd. apply stringArg_Ok in Hd.
  bind_inv H as first Hfirst. apply call_Ok in Hfirst.
  exists m, d. split; [reflexivity|]. split; [exact Hd|].
  intros ->. discriminate Hfirst.
Qed.

(** X10.  A file is rendered only if every type it declares has a
    description that is a string and is not empty: one public ENUM whose
    description is null or empty stops enum.go, one INPUT_OBJECT of that
    kind stops input.go, whatever else the schema holds. *)
Theorem declared_types_need_a_description (L : GoLib) (doc : json)
        (types : list json) :
  SortContract L ->
  typesOf L doc = Ok types ->
  ((exists r, enum_go L doc = Ok r) ->
   Forall (fun t => declaresEnum t = true ->
                    exists m d, t = JObj m
                                /\ mapIndex "description" m = JStr d
                                /\ d <> EmptyString) types)
  /\ ((exists r, input_go L doc = Ok r) ->
      Forall (fun t => declaresInput t = true ->
                       exists m d, t = JObj m
                                   /\ mapIndex "description" m = JStr d
                                   /\ d <> EmptyString) types).
Proof.
  intros HL Htypes. split; intros [[text doc'] H].
  - unfold enum_go in H. rewrite Htypes in H. cbn [bind] in H.
    bind_inv H as sorted Hsorted. bind_inv H as body Hbody.
    apply call_Ok in Hsorted.
    apply (rangeExec_select _ declaresEnum) in Hbody
      as (parts & Hparts & _); [|exact (isPublicEnum_spec L)].
    apply mapM_wrap in Hparts as (decls & Hdecls & _).
    apply mapM_Ok_each in Hdecls.
    destruct (sortByName_sorted L types sorted HL Hsorted) as [Hperm _].
    apply Forall_forall. intros t Ht Hdecl.
    assert (Hin : In t (filter declaresEnum sorted))
      by (apply filter_In; split;
          [exact (Permutation_in _ Hperm Ht) | exact Hdecl]).
    destruct (proj1 (Forall_forall _ _) Hdecls t Hin) as [d Hd].
    exact (enum_Ok_description L t d Hd).
  - unfold input_go in H. bind_inv H as all Hall.
    bind_inv H as names Hnames. rewrite Htypes in H. cbn [bind] in H.
    bind_inv H as sorted Hsorted. bind_inv H as body Hbody.
    apply call_Ok in Hsorted.
    rewrite (rangeExec_ext _
               (fun t => b <- (kind <- field "kind" t ;;
                               eq_string L kind "INPUT_OBJECT") ;;
                         if b then (d <- inputObject L t ;; Ok (nl ++ d ++ nl))
                         else Ok EmptyString))
      in Hbody by (intros x; unfold inputEntry; now rewrite bind_assoc).
    apply (rangeExec_select _ declaresInput) in Hbody
      as (parts & Hparts & _); [|exact (inputKind_spec L)].
    apply mapM_wrap in Hparts as (decls & Hdecls & _).
    apply mapM_Ok_each in Hdecls.
    destruct (sortByName_sorted L types sorted HL Hsorted) as [Hperm _].
    apply Forall_forall. intros t Ht Hdecl.
    assert (Hin : In t (filter declaresInput sorted))
      by (apply filter_In; split;
          [exact (Permutation_in _ Hperm Ht) | exact Hdecl]).
    destruct (proj1 (Forall_forall _ _) Hdecls t Hin) as [d Hd].
    exact (inputObject_Ok_description L t d Hd).
Qed.

Lemma declared_types_need_a_description_witness :
  Forall (fun t => declaresEnum t = true ->
                   exists m d, t = JObj m
                               /\ mapIndex "description" m = JStr d
                               /\ d <> EmptyString) [issueState; addCommentInput]
  /\ Forall (fun t => declaresInput t = true ->
                      exists m d, t = JObj m
                                  /\ mapIndex "description" m = JStr d
                                  /\ d <> EmptyString) [issueState; addCommentInput].
Proof.
  destruct (declared_types_need_a_description stableLib smallSchema
              [issueState; addCommentInput] stableLib_contract eq_refl)
    as [He Hi].
  split; [apply He | apply Hi]; eexists; vm_compute; reflexivity.
Defined.

(** X11.  The Go type of a declared field.  A field is declared, in either
    range, with the string the resolver returns on its [type]; for a field
    that is not required that string begins with the marker, so the field
    is a pointer or a slice pointer; for a required one it is what the
    wrapped reference resolves to, without its marker. *)
Theorem fieldDecl_type (L : GoLib) (f : json) (note tag text : string) :
  fieldDecl L f note tag = Ok text ->
  exists m d n ty,
    f = JObj m
    /\ mapIndex "description" m = JStr d
    /\ mapIndex "name" m = JStr n
    /\ typeString (mapIndex "type" m) = Ok ty
    /\ text = nl ++ tab ++ "// " ++ fullSentence d ++ note ++ nl
              ++ tab ++ identifier L n ++ " " ++ ty ++ " "
              ++ backquote ++ "json:" ++ dquote ++ n ++ tag ++ dquote
              ++ backquote
    /\ (if isRequired f
        then exists tm, mapIndex "type" m = JObj tm
                        /\ typeString (mapIndex "ofType" tm)
                           = Ok (String "*" ty)
        else HasPrefix ty "*" = true).
Proof.
  intros H. unfold fieldDecl in H.
  destruct f as [| | | | |m]; try discriminate H. cbn [field bind] in H.
  bind_inv H as d Hd. apply stringArg_Ok in Hd.
  bind_inv H as n Hn. apply stringArg_Ok in Hn.
  bind_inv H as ty Hty. apply call_Ok in Hty. injection H as <-.
  assert (Hty' : typeString (mapIndex "type" m) = Ok ty)
    by (destruct (mapIndex "type" m); try discriminate Hty; exact Hty).
  exists m, d, n, ty. rewrite Hn. cbn [print].
  repeat (split; [assumption || reflexivity|]).
  cbn [isRequired].
  destruct (kindIs (mapIndex "type" m) "NON_NULL") eqn:Hk.
  - destruct (mapIndex "type" m) as [| | | | |tm]; try discriminate Hk.
    exists tm. split; [reflexivity|].
    rewrite typeString_unfold in Hty'. unfold kindIs in Hk.
    rewrite Hk in Hty'.
    destruct (typeString (mapIndex "ofType" tm)) as [s| |p];
      try discriminate Hty'.
    cbn [bind] in Hty'.
    destruct (HasPrefix s "*") eqn:Hs; [|discriminate Hty'].
    apply HasPrefix_star in Hs as [r ->]. now injection Hty' as ->.
  - destruct (typeString_marker _ _ Hk Hty') as [r ->].
    apply HasPrefix_star. now exists r.
Qed.

Lemma fieldDecl_type_witness :
  exists m d n ty,
    inputField "labels" "Labels to set"
      (LIST (NON_NULL (named "SCALAR" "String"))) = JObj m
    /\ mapIndex "description" m = JStr d
    /\ mapIndex "name" m = JStr n
    /\ typeString (mapIndex "type" m) = Ok ty
    /\ (nl ++ tab ++ "// Labels to set. (Optional.)" ++ nl
           ++ tab ++ "Labels *[]String "
           ++ backquote ++ "json:" ++ dquote ++ "labels,omitempty" ++ dquote
           ++ backquote)
       = nl ++ tab ++ "// " ++ fullSentence d ++ " (Optional.)" ++ nl
            ++ tab ++ identifier stableLib n ++ " " ++ ty ++ " "
            ++ backquote ++ "json:" ++ dquote ++ n ++ ",omitempty" ++ dquote
            ++ backquote
    /\ (if isRequired (inputField "labels" "Labels to set"
                         (LIST (NON_NULL (named "SCALAR" "String"))))
        then exists tm, mapIndex "type" m = JObj tm
                        /\ typeString (mapIndex "ofType" tm)
                           = Ok (String "*" ty)
        else HasPrefix ty "*" = true).
Proof.
  apply (fieldDecl_type stableLib
           (inputField "labels" "Labels to set"
              (LIST (NON_NULL (named "SCALAR" "String"))))
           " (Optional.)" ",omitempty").
  vm_compute. reflexivity.
Defined.

(** *** What a run touches *)

Section RunFrame.
Variable L : GoLib.
Variable E : Env.

Lemma runLoop_frame (filename : string) (todo : list (string * template))
      (schema : json) (w w' : world) (e : ending) :
  runLoop L E todo schema w = (w', e) ->
  ~ In filename (map fst todo) ->
  readFile filename (disk w') = readFile filename (disk w).
Proof.
  revert schema w.
  induction todo as [|[f t] rest IH]; intros schema w H Hnot.
  - now injection H as <- _.
  - cbn [runLoop] in H. cbn [map fst In] in Hnot.
    assert (Hf : String.eqb filename f = false)
      by (apply String.eqb_neq; intros ->; apply Hnot; now left).
    assert (Hrest : ~ In filename (map fst rest))
      by (intros Hin; apply Hnot; now right).
    destruct (t schema) as [[buf schema']| |p];
      [|now injection H as <- _|now injection H as <- _].
    destruct (format_Source L buf) as [formatted|msg].
    + destruct (WriteFile E f formatted) as [|msg' remains].
      * rewrite (IH _ _ H Hrest). cbn [disk readFile]. now rewrite Hf.
      * injection H as <- _. cbn [disk].
        destruct remains; [cbn [readFile]; now rewrite Hf | reflexivity].
    + destruct (WriteFile E f (degraded msg buf)) as [|msg' remains].
      * rewrite (IH _ _ H Hrest). cbn [disk readFile]. now rewrite Hf.
      * injection H as <- _. cbn [disk].
        destruct remains; [cbn [readFile]; now rewrite Hf | reflexivity].
Qed.

(** A loop that returns nil has rendered every entry, announced and
    written each payload, and logged each formatting error. *)
Lemma runLoop_returned_nil (todo : list (string * template)) (schema : json)
      (w w' : world) :
  runLoop L E todo schema w = (w', Returned None) ->
  exists steps,
    renderSteps todo schema = Ok steps
    /\ Forall (fun s => WriteFile E (fst s) (payload L (snd s)) = WriteOk)
              steps
    /\ disk w' = (rev (writes L steps) ++ disk w)%list
    /\ stdout w' = (stdout w ++ map announce steps)%list
    /\ stderr w' = (stderr w ++ formatLog L steps)%list.
Proof.
  revert schema w.
  induction todo as [|[f t] rest IH]; intros schema w H.
  - injection H as <-. exists []. cbn [renderSteps writes formatLog map rev
                                       flat_map app].
    rewrite !app_nil_r. repeat split. constructor.
  - cbn [runLoop] in H.
    destruct (t schema) as [[buf schema']| |p] eqn:Ht; try discriminate H.
    cbn [renderSteps]. rewrite Ht. cbn [bind fst snd].
    destruct (format_Source L buf) as [formatted|msg] eqn:Hfmt.
    + destruct (WriteFile E f formatted) as [|msg' remains] eqn:Hw;
        [|discriminate H].
      destruct (IH _ _ H) as (steps & -> & Hall & Hd & Ho & He).
      exists ((f, buf) :: steps). cbn [disk stdout stderr] in Hd, Ho, He.
      split; [reflexivity|]. split; [|split; [|split]].
      * constructor; [|exact Hall]. cbn [fst snd]. unfold payload.
        now rewrite Hfmt.
      * rewrite Hd. cbn [writes map rev fst snd]. unfold payload at 2.
        rewrite Hfmt. now rewrite <- app_assoc.
      * rewrite Ho. cbn [map]. unfold announce at 2. cbn [fst].
        now rewrite <- app_assoc.
      * rewrite He. cbn [formatLog flat_map snd]. now rewrite Hfmt.
    + destruct (WriteFile E f (degraded msg buf)) as [|msg' remains] eqn:Hw;
        [|discriminate H].
      destruct (IH _ _ H) as (steps & -> & Hall & Hd & Ho & He).
      exists ((f, buf) :: steps). cbn [disk stdout stderr] in Hd, Ho, He.
      split; [reflexivity|]. split; [|split; [|split]].
      * constructor; [|exact Hall]. cbn [fst snd]. unfold payload.
        now rewrite Hfmt.
      * rewrite Hd. cbn [writes map rev fst snd]. unfold payload at 2.
        rewrite Hfmt. now rewrite <- app_assoc.
      * rewrite Ho. cbn [map]. unfold announce at 2. cbn [fst].
        now rewrite <- app_assoc.
      * rewrite He. cbn [formatLog flat_map snd]. rewrite Hfmt.
        now rewrite <- app_assoc.
Qed.

End RunFrame.

(** X12.  A run writes no file but enum.go and input.go: every other file
    is, after [main], what it was before, however the run ends. *)
Theorem main_touches_only_its_files (L : GoLib) (E : Env) (w : world)
        (filename : string) :
  filename <> "enum.go" -> filename <> "input.go" ->
  readFile filename (disk (fst (main L E w))) = readFile filename (disk w).
Proof.
  intros He Hi.
  assert (Hrun : readFile filename (disk (fst (run L E w)))
                 = readFile filename (disk w)).
  { unfold run. destruct (GITHUB_TOKEN E) as [token|]; [|reflexivity].
    destruct (loadSchema L E token) as [schema|err]; [|reflexivity].
    destruct (runLoop L E (rangeTemplates L E) schema w) as [w' e] eqn:Hloop.
    apply (runLoop_frame L E filename _ _ _ _ _ Hloop).
    unfold rangeTemplates, templates.
    destruct (enum_go_first E); cbn [rev app map fst In]; intuition. }
  unfold main. destruct (flag_Parse (os_Args E)); try reflexivity.
  destruct (run L E w) as [w' [[err|]|p]]; exact Hrun.
Qed.

Lemma main_touches_only_its_files_witness :
  readFile "doc.go"
    (disk (fst (main allFormatted (writable true)
                  {| disk := [("doc.go", "package githubql")];
                     stdout := []; stderr := [] |})))
  = readFile "doc.go"
      (disk {| disk := [("doc.go", "package githubql")];
               stdout := []; stderr := [] |}).
Proof.
  apply (main_touches_only_its_files allFormatted (writable true)
           {| disk := [("doc.go", "package githubql")];
              stdout := []; stderr := [] |} "doc.go");
    discriminate.
Defined.

(** X13.  The exit status 0 is reached in two ways only.  Either the
    command line asks for help, in a release of [flag] that exits with 0
    on it: then [run] is not called, nothing is written or announced, and
    the usage is printed.  Or [flag.Parse] returns, the credential was set,
    the schema was loaded and decoded, both templates were rendered, and
    each payload was announced on the standard output and then written
    with success, in the order of the range; the log then holds the
    formatting errors and nothing else. *)
Theorem exit_zero_is_help_or_both_files_written (L : GoLib) (E : Env)
        (w w' : world) :
  main L E w = (w', 0) ->
  (flag_Parse (os_Args E) = HelpRequested
   /\ help_exits_zero L = true
   /\ disk w' = disk w
   /\ stdout w' = stdout w
   /\ stderr w' = (stderr w ++ [Usage None])%list)
  \/ (flag_Parse (os_Args E) = Parsed
      /\ exists token schema steps,
           GITHUB_TOKEN E = Some token
           /\ loadSchema L E token = inl schema
           /\ renderSteps (rangeTemplates L E) schema = Ok steps
           /\ map fst steps = map fst (rangeTemplates L E)
           /\ Forall (fun s => WriteFile E (fst s) (payload L (snd s))
                               = WriteOk) steps
           /\ disk w' = (rev (writes L steps) ++ disk w)%list
           /\ stdout w' = (stdout w ++ map announce steps)%list
           /\ stderr w' = (stderr w ++ formatLog L steps)%list).
Proof.
  unfold main. destruct (flag_Parse (os_Args E)) as [| |msg];
    [|destruct (help_exits_zero L) eqn:Hhelp|]; try discriminate.
  - destruct (run L E w) as [w1 [[err|]|p]] eqn:Hrun; try discriminate.
    intros [= <-]. right. split; [reflexivity|]. unfold run in Hrun.
    destruct (GITHUB_TOKEN E) as [token|]; [|discriminate Hrun].
    destruct (loadSchema L E token) as [schema|err] eqn:Hload;
      [|discriminate Hrun].
    destruct (runLoop_returned_nil L E _ _ _ _ Hrun)
      as (steps & Hsteps & Hall & Hd & Ho & He).
    exists token, schema, steps.
    repeat (split; [assumption || reflexivity|]).
    split; [exact (renderSteps_names _ _ _ Hsteps)|].
    repeat (split; [assumption|]). exact He.
  - intros [= <-]. left. now repeat split.
Qed.

Lemma exit_zero_is_help_or_both_files_written_witness :
  (flag_Parse (os_Args (writable true)) = HelpRequested
   /\ help_exits_zero allFormatted = true
   /\ disk smallWorld = disk emptyWorld
   /\ stdout smallWorld = stdout emptyWorld
   /\ stderr smallWorld = (stderr emptyWorld ++ [Usage None])%list)
  \/ (flag_Parse (os_Args (writable true)) = Parsed
      /\ exists token schema steps,
           GITHUB_TOKEN (writable true) = Some token
           /\ loadSchema allFormatted (writable true) token = inl schema
           /\ renderSteps (rangeTemplates allFormatted (writable true))
                          schema
              = Ok steps
           /\ map fst steps
              = map fst (rangeTemplates allFormatted (writable true))
           /\ Forall (fun s => WriteFile (writable true) (fst s)
                                 (payload allFormatted (snd s)) = WriteOk)
                     steps
           /\ disk smallWorld
              = (rev (writes allFormatted steps) ++ disk emptyWorld)%list
           /\ stdout smallWorld
              = (stdout emptyWorld ++ map announce steps)%list
           /\ stderr smallWorld
              = (stderr emptyWorld ++ formatLog allFormatted steps)%list).
Proof.
  apply (exit_zero_is_help_or_both_files_written allFormatted (writable true)
           emptyWorld smallWorld).
  vm_compute. reflexivity.
Defined.

(** *** The document a template leaves *)

Lemma assign_assign (k : string) (v v' : json) (m : object) :
  assign k v (assign k v' m) = assign k v m.
Proof.
  induction m as [|[k' x] m IH]; [reflexivity|]. cbn [assign].
  destruct (String.eqb k k') eqn:Hk; cbn [assign]; rewrite Hk;
    [reflexivity | now rewrite IH].
Qed.

Lemma withTypes_withTypes (doc : json) (s s' : list json) :
  withTypes (withTypes doc s) s' = withTypes doc s'.
Proof.
  destruct doc as [| | | | |top]; try reflexivity.
  assert (Hcases :
            (exists data schema l,
                mapIndex "data" top = JObj data
                /\ mapIndex "__schema" data = JObj schema
                /\ mapIndex "types" schema = JArr l)
            \/ (forall x, withTypes (JObj top) x = JObj top)).
  { cbn [withTypes].
    destruct (mapIndex "data" top) as [| | | | |data]; try (now right).
    destruct (mapIndex "__schema" data) as [| | | | |schema] eqn:Hs;
      try (now right).
    destruct (mapIndex "types" schema) as [| | | |l|] eqn:Ht;
      try (now right).
    left. now exists data, schema, l. }
  destruct Hcases as [(data & schema & l & Hd & Hs & Ht)|Hsame].
  - assert (Eq : forall x,
               withTypes (JObj top) x
               = JObj (assign "data"
                         (JObj (assign "__schema"
                                  (JObj (assign "types" (JArr x) schema))
                                  data))
                         top))
      by (intros x; cbn [withTypes]; now rewrite Hd, Hs, Ht).
    rewrite !Eq. cbn [withTypes].
    rewrite mapIndex_assign by (rewrite Hd; discriminate).
    rewrite mapIndex_assign by (rewrite Hs; discriminate).
    rewrite mapIndex_assign by (rewrite Ht; discriminate).
    now rewrite !assign_assign.
  - now rewrite !Hsame.
Qed.

(** X14.  The sort is in place, so a template leaves the shared document
    with its types in the order of their names; when no two types have the
    same name that document is at rest: each of the two templates, executed
    on it, renders the buffer it renders on the original document and
    leaves it as it is. *)
Theorem templates_leave_the_document_at_rest (L : GoLib) (doc : json)
        (types : list json) (text : string) (doc' : json) :
  SortContract L ->
  typesOf L doc = Ok types ->
  NoDup (map nameOf types) ->
  enum_go L doc = Ok (text, doc') \/ input_go L doc = Ok (text, doc') ->
  (exists sorted, sortByName L types = Ok sorted
                  /\ typesOf L doc' = Ok sorted)
  /\ (forall text', textOf (enum_go L doc) = Ok text' ->
                    enum_go L doc' = Ok (text', doc'))
  /\ (forall text', textOf (input_go L doc) = Ok text' ->
                    input_go L doc' = Ok (text', doc')).
Proof.
  intros HL Htypes Hnd H.
  assert (Hleft : exists sorted, sortByName L types = Ok sorted
                                 /\ doc' = withTypes doc sorted).
  { destruct H as [H|H];
      [eapply enum_go_leaves | eapply input_go_leaves]; eassumption. }
  destruct Hleft as (sorted & Hsorted & ->).
  pose proof (proj1 (types_withTypes L doc types sorted Htypes
                       (sortByName_nil L _ _ Hsorted))) as Htypes'.
  destruct (sortByName_sorted L types sorted HL Hsorted) as [Hperm _].
  pose proof (Permutation_NoDup (Permutation_map nameOf Hperm) Hnd) as Hnd'.
  pose proof (sortByName_idempotent L types sorted HL Hnd Hsorted) as Hidem.
  split; [now exists sorted|]. split; intros text' Htext.
  - rewrite <- (enum_go_after_sort L HL doc types Htypes Hnd sorted Hsorted)
      in Htext.
    apply textOf_Ok in Htext as [d'' Hagain]. rewrite Hagain. do 2 f_equal.
    destruct (enum_go_leaves L (withTypes doc sorted) sorted Htypes' _ _ Hagain)
      as (sorted' & Hsorted' & ->).
    rewrite Hidem in Hsorted'. injection Hsorted' as <-.
    apply withTypes_withTypes.
  - rewrite <- (input_go_after_sort L HL doc types Htypes Hnd sorted Hsorted)
      in Htext.
    apply textOf_Ok in Htext as [d'' Hagain]. rewrite Hagain. do 2 f_equal.
    destruct (input_go_leaves L (withTypes doc sorted) sorted Htypes' _ _ Hagain)
      as (sorted' & Hsorted' & ->).
    rewrite Hidem in Hsorted'. injection Hsorted' as <-.
    apply withTypes_withTypes.
Qed.

Lemma templates_leave_the_document_at_rest_witness :
  (exists sorted,
      sortByName stableLib [issueState; addCommentInput] = Ok sorted
      /\ typesOf stableLib (withTypes smallSchema [addCommentInput; issueState])
         = Ok sorted)
  /\ (forall text',
         textOf (enum_go stableLib smallSchema) = Ok text' ->
         enum_go stableLib (withTypes smallSchema [addCommentInput; issueState])
         = Ok (text', withTypes smallSchema [addCommentInput; issueState]))
  /\ (forall text',
         textOf (input_go stableLib smallSchema) = Ok text' ->
         input_go stableLib
           (withTypes smallSchema [addCommentInput; issueState])
         = Ok (text', withTypes smallSchema [addCommentInput; issueState])).
Proof.
  apply (templates_leave_the_document_at_rest stableLib smallSchema
           [issueState; addCommentInput] smallEnumText).
  - exact stableLib_contract.
  - reflexivity.
  - repeat constructor; simpl; intuition congruence.
  - left. vm_compute. reflexivity.
Defined.

(** *** The two files together *)

(** X15.  No type is declared in both files: for every type of the range,
    the entry of enum.go or the entry of input.go is empty. *)
Theorem no_type_in_both_files (L : GoLib) (t : json) (a b : string) :
  enumEntry L t = Ok a -> inputEntry L t = Ok b -> a = EmptyString \/ b = EmptyString.
Proof.
  intros Ha Hb. unfold enumEntry in Ha. unfold inputEntry in Hb.
  rewrite <- bind_assoc in Hb.
  bind_inv Ha as e He. bind_inv Hb as i Hi.
  apply isPublicEnum_spec in He. apply inputKind_spec in Hi. subst e i.
  destruct (declaresEnum t) eqn:De; [|left; now injection Ha].
  destruct (declaresInput t) eqn:Di; [|right; now injection Hb].
  exfalso. unfold declaresEnum in De. unfold declaresInput in Di.
  apply andb_true_iff in De as [De _]. unfold kindIs in De, Di.
  destruct t as [| | | | |m]; try discriminate De.
  apply isStr_true in De. rewrite De in Di. discriminate Di.
Qed.

Lemma no_type_in_both_files_witness :
  nl ++ issueStateText ++ nl = EmptyString \/ EmptyString = EmptyString.
Proof.
  apply (no_type_in_both_files stableLib issueState);
    vm_compute; reflexivity.
Defined.

(** *** Panics *)

Lemma noPanic_bind {A B : Type} (r : result A) (k : A -> result B) :
  noPanic r -> (forall a, noPanic (k a)) -> noPanic (x <- r ;; k x).
Proof.
  intros Hr Hk. destruct r as [a| |p]; cbn [bind];
    [apply Hk | discriminate | now elim (Hr p)].
Qed.

Lemma noPanic_Ok {A : Type} (a : A) : noPanic (Ok a).
Proof. discriminate. Qed.

Lemma noPanic_ExecError {A : Type} : noPanic (@ExecError A).
Proof. discriminate. Qed.

Lemma noPanic_rangeExec {A : Type} (f : A -> result string) (l : list A) :
  (forall x, noPanic (f x)) -> noPanic (rangeExec f l).
Proof.
  intros Hf. induction l as [|x l IH]; cbn [rangeExec].
  - apply noPanic_Ok.
  - apply noPanic_bind; [apply Hf|]. intros s.
    apply noPanic_bind; [exact IH|]. intros r. apply noPanic_Ok.
Qed.

Section Recovered.
Variable L : GoLib.
Hypothesis Hrecovers : recovers_panics L = true.

Lemma noPanic_call {A : Type} (r : result A) : noPanic (call L r).
Proof.
  unfold call. destruct r; try discriminate. rewrite Hrecovers. discriminate.
Qed.

Lemma noPanic_field (k : string) (v : json) : noPanic (field k v).
Proof. destruct v; discriminate. Qed.

Lemma noPanic_stringArg (v : json) : noPanic (stringArg v).
Proof. destruct v; discriminate. Qed.

Lemma noPanic_sliceArg (v : json) : noPanic (sliceArg v).
Proof. destruct v; discriminate. Qed.

Lemma noPanic_pipedSlice (v : json) : noPanic (pipedSlice L v).
Proof.
  destruct v; try discriminate. cbn [pipedSlice].
  destruct (nil_pipes_as_zero L); discriminate.
Qed.

Lemma noPanic_eq_string (v : json) (c : string) : noPanic (eq_string L v c).
Proof.
  destruct v; try discriminate. cbn [eq_string].
  destruct (eq_accepts_nil L); discriminate.
Qed.

Lemma noPanic_rangeOver (v : json) : noPanic (rangeOver v).
Proof. destruct v; discriminate. Qed.

Lemma noPanic_chainField (k : string) (v : value) : noPanic (chainField k v).
Proof. destruct v as [|[| | | | |m]]; discriminate. Qed.

Ltac no_panic :=
  repeat first
    [ apply noPanic_Ok
    | apply noPanic_ExecError
    | apply noPanic_call
    | apply noPanic_field
    | apply noPanic_stringArg
    | apply noPanic_sliceArg
    | apply noPanic_pipedSlice
    | apply noPanic_eq_string
    | apply noPanic_rangeOver
    | apply noPanic_chainField
    | apply noPanic_rangeExec; intros ?
    | apply noPanic_bind; [|intros ?]
    | match goal with
      | |- noPanic (if ?b then _ else _) => destruct b
      | |- noPanic (match ?v with _ => _ end) => is_var v; destruct v
      end ].

Lemma noPanic_enum (t : json) : noPanic (enum L t).
Proof. unfold enum, enumConstant. no_panic. Qed.

Lemma noPanic_enumEntry (t : json) : noPanic (enumEntry L t).
Proof.
  unfold enumEntry, isPublicEnum. no_panic; try apply noPanic_enum.
Qed.

Lemma noPanic_typesOf (doc : json) : noPanic (typesOf L doc).
Proof. unfold typesOf, schemaTypes. no_panic. Qed.

Lemma noPanic_typesArg (doc : json) : noPanic (typesArg doc).
Proof. unfold typesArg, schemaTypes. no_panic. Qed.

Lemma noPanic_enum_go (doc : json) : noPanic (enum_go L doc).
Proof.
  unfold enum_go. no_panic;
    try apply noPanic_typesOf; try apply noPanic_enumEntry.
Qed.

Lemma noPanic_fieldDecl (f : json) (note tag : string) :
  noPanic (fieldDecl L f note tag).
Proof. unfold fieldDecl. no_panic. Qed.

Lemma noPanic_inputObject (t : json) : noPanic (inputObject L t).
Proof.
  unfold inputObject, requiredField, optionalField, fieldTypeKind, ne_string.
  no_panic; try apply noPanic_fieldDecl.
Qed.

Lemma noPanic_inputEntry (t : json) : noPanic (inputEntry L t).
Proof.
  unfold inputEntry. no_panic; try apply noPanic_inputObject.
Qed.

Lemma noPanic_input_go (doc : json) : noPanic (input_go L doc).
Proof.
  unfold input_go. no_panic;
    try apply noPanic_typesArg; try apply noPanic_typesOf;
    try apply noPanic_inputEntry.
Qed.

Lemma runLoop_no_panic (E : Env) (todo : list (string * template))
      (schema : json) (w : world) (p : panic) :
  Forall (fun ft => forall doc, noPanic (snd ft doc)) todo ->
  snd (runLoop L E todo schema w) <> Panicked p.
Proof.
  intros Hall. revert schema w.
  induction Hall as [|[f t] rest Ht _ IH]; intros schema w;
    [discriminate|].
  cbn [runLoop]. cbn [snd] in Ht.
  destruct (t schema) as [[buf schema']| |q] eqn:Hrun;
    [|discriminate|now elim (Ht schema q)].
  destruct (format_Source L buf) as [formatted|msg].
  - destruct (WriteFile E f formatted); [apply IH | discriminate].
  - destruct (WriteFile E f (degraded msg buf)); [apply IH | discriminate].
Qed.

End Recovered.

(** X16.  With a template package that recovers the panics of the
    functions it calls, no panic of [typeString], [endSentence],
    [sortByName] or [inputObjects] unwinds the run: each becomes the error
    of [Execute], [run] returns, and [main], when [flag.Parse] has let it
    call [run], exits with the status 0 or 1.  The status 2 is then that
    of a flag on the command line. *)
Theorem recovered_panics_end_in_an_error (L : GoLib) (E : Env) (w : world) :
  recovers_panics L = true ->
  (forall doc, noPanic (enum_go L doc))
  /\ (forall doc, noPanic (input_go L doc))
  /\ (exists w' err, run L E w = (w', Returned err))
  /\ (flag_Parse (os_Args E) = Parsed ->
      snd (main L E w) = 0 \/ snd (main L E w) = 1)
  /\ (snd (main L E w) = 2 -> flag_Parse (os_Args E) <> Parsed).
Proof.
  intros Hrec.
  assert (Hrun : exists w' err, run L E w = (w', Returned err)).
  { destruct (run L E w) as [w' [err|p]] eqn:Hrun; [now exists w', err|].
    exfalso. unfold run in Hrun.
    destruct (GITHUB_TOKEN E) as [token|]; [|discriminate Hrun].
    destruct (loadSchema L E token) as [schema|err]; [|discriminate Hrun].
    apply (runLoop_no_panic L E (rangeTemplates L E) schema w p).
    + unfold rangeTemplates, templates.
      destruct (enum_go_first E); cbn [rev app];
        repeat constructor; cbn [snd]; intros doc;
        (now apply noPanic_enum_go) || (now apply noPanic_input_go).
    + now rewrite Hrun. }
  assert (Hmain : flag_Parse (os_Args E) = Parsed ->
                  snd (main L E w) = 0 \/ snd (main L E w) = 1).
  { intros Hflags. unfold main. rewrite Hflags.
    destruct Hrun as (w' & [err|] & ->); [now right | now left]. }
  split; [|split; [|split; [exact Hrun|split; [exact Hmain|]]]].
  - intros doc. now apply noPanic_enum_go.
  - intros doc. now apply noPanic_input_go.
  - intros H2 Hflags. destruct (Hmain Hflags) as [H|H]; congruence.
Qed.

Lemma recovered_panics_end_in_an_error_witness :
  (forall doc, noPanic (enum_go shellLib doc))
  /\ (forall doc, noPanic (input_go shellLib doc))
  /\ (exists w' err,
         run shellLib (writable true) emptyWorld = (w', Returned err))
  /\ (flag_Parse (os_Args (writable true)) = Parsed ->
      snd (main shellLib (writable true) emptyWorld) = 0
      \/ snd (main shellLib (writable true) emptyWorld) = 1)
  /\ (snd (main shellLib (writable true) emptyWorld) = 2 ->
      flag_Parse (os_Args (writable true)) <> Parsed).
Proof.
  apply (recovered_panics_end_in_an_error shellLib (writable true) emptyWorld).
  reflexivity.
Defined.
